(** * puppeteer-real-browser-client: the retry and fan-out orchestration

    A shallow embedding of [src/index.ts] (class
    [PuppeteerRealBrowserClient]): the action classifier
    [extractActions], the browser lifecycle ([initBrowser],
    [ensureBrowser], [closeBrowser], [close]), the page session
    ([configurePage], [executeActions]), the retry engine inside [fetch]
    and the fan-out of [fetchMany].

    The browser engine and the base client of [@xcrap/core] are external
    collaborators: the engine is a record of state-passing operations over
    an abstract world, the base client a record of resolved settings. *)

From Stdlib Require Import ZArith String List Bool Lia.
From stdpp Require Import base option list strings gmap.
Import ListNotations.

Local Open Scope string_scope.
Local Open Scope list_scope.
Local Open Scope Z_scope.

(** ** JavaScript values the code inspects *)

Module Js.

(** A value caught by [catch (error: any)].  The handler asks three
    things of it: [error instanceof Error], [error.message] and
    [error.status], a number when it is there.  A caller's action can
    reject with anything: an [Error], another value, or [null] or
    [undefined], of which reading a property raises a TypeError. *)
Inductive Thrown : Type :=
| ErrorObject (message : string) (status : option Z)
| OtherValue (status : option Z)
| Nullish (isNull : bool).

(** [x || d] on an optional number: [undefined], and [0], are falsy. *)
Definition orNumber (x : option Z) (d : Z) : Z :=
  match x with
  | Some n => if n =? 0 then d else n
  | None => d
  end.

(** [x ?? d] on an optional number: only [undefined] is replaced. *)
Definition coalesceNumber (x : option Z) (d : Z) : Z :=
  match x with
  | Some n => n
  | None => d
  end.

(** [s || d] on a string: the empty string is falsy. *)
Definition orString (s d : string) : string :=
  if String.eqb s "" then d else s.

(** Truthiness of an optional string, as in [if (this.currentUserAgent)]. *)
Definition truthyString (s : option string) : bool :=
  match s with
  | Some v => negb (String.eqb v "")
  | None => false
  end.

(** The TypeError V8 raises for [undefined.prop] and [null.prop]. *)
Definition TypeErrorNullish (isNull : bool) (prop : string) : Thrown :=
  ErrorObject ("Cannot read properties of "
                 +:+ (if isNull then "null" else "undefined")
                 +:+ " (reading '" +:+ prop +:+ "')") None.

Definition TypeErrorUndefined : string -> Thrown := TypeErrorNullish false.

(** Completion of an awaited call: a value, or a thrown value. *)
Inductive Completion (A : Type) : Type :=
| Normal (a : A)
| Throw (e : Thrown).
Arguments Normal {A} a.
Arguments Throw {A} e.

End Js.
Import Js.

(** ** Action classifier ([extractActions], index.ts 91-114) *)

Module Actions.

(** Modelled from the spec: the constant [defaultPuppeteerActionType] of
    [./constants], which is not among the sources; the spec gives the
    default phase of a bare callable as "after". *)
Definition defaultPuppeteerActionType : string := "afterRequest".

Section Classifier.

(** The callables ([PuppeteerRealBrowserClientActionFunction]). *)
Variable F : Type.

(** [PuppeteerRealBrowserClientAction]: a bare callable, or a record
    [{ type, exec }].  At run time [type] is whatever string the
    caller wrote. *)
Inductive PuppeteerRealBrowserClientAction : Type :=
| ActionFunction (f : F)
| ActionObject (type : string) (exec : F).

Record ExtractActionsResult : Type := {
  before : list F;
  after : list F
}.

Definition actionType (action : PuppeteerRealBrowserClientAction) : string :=
  match action with
  | ActionFunction _ => defaultPuppeteerActionType
  | ActionObject t _ => t
  end.

Definition actionFunc (action : PuppeteerRealBrowserClientAction) : F :=
  match action with
  | ActionFunction f => f
  | ActionObject _ e => e
  end.

(** One turn of the [for ... of] loop: a [push] on one of the two
    arrays. *)
Definition extractActions_body (acc : list F * list F)
    (action : PuppeteerRealBrowserClientAction) : list F * list F :=
  if String.eqb (actionType action) "beforeRequest"
  then (fst acc ++ [actionFunc action], snd acc)
  else (fst acc, snd acc ++ [actionFunc action]).

Definition extractActions
    (actions : option (list PuppeteerRealBrowserClientAction)) : ExtractActionsResult :=
  let actions := match actions with Some l => l | None => [] end in
  let acc := fold_left extractActions_body actions ([], []) in
  {| before := fst acc; after := snd acc |}.

(** The partition in the spec's words: the phase an action names, and
    the two sub-sequences of callables, each in input order. *)
Inductive Phase : Type := BeforeRequest | AfterRequest.

Definition phaseOf (action : PuppeteerRealBrowserClientAction) : Phase :=
  match action with
  | ActionFunction _ => AfterRequest
  | ActionObject t _ => if String.eqb t "beforeRequest" then BeforeRequest else AfterRequest
  end.

Definition isBefore (action : PuppeteerRealBrowserClientAction) : bool :=
  match phaseOf action with BeforeRequest => true | AfterRequest => false end.

Definition beforeBucket (actions : list PuppeteerRealBrowserClientAction) : list F :=
  map actionFunc (List.filter isBefore actions).

Definition afterBucket (actions : list PuppeteerRealBrowserClientAction) : list F :=
  map actionFunc (List.filter (fun a => negb (isBefore a)) actions).

End Classifier.

Arguments ActionFunction {F} f.
Arguments ActionObject {F} type exec.
Arguments before {F} _.
Arguments after {F} _.
Arguments actionType {F} action.
Arguments actionFunc {F} action.
Arguments extractActions_body {F} acc action.
Arguments extractActions {F} actions.
Arguments phaseOf {F} action.
Arguments isBefore {F} action.
Arguments beforeBucket {F} actions.
Arguments afterBucket {F} actions.

(** The same action over other callables. *)
Definition mapAction {F G : Type} (f : F -> G)
    (action : PuppeteerRealBrowserClientAction F) : PuppeteerRealBrowserClientAction G :=
  match action with
  | ActionFunction c => ActionFunction (f c)
  | ActionObject t e => ActionObject t (f e)
  end.

End Actions.

(** ** The client: browser lifecycle, page session and retry engine *)

Module Client.
Import Actions.

(** What [page.goto] resolves to when it is not [null]: the accessors
    [status()], [headers()] and [statusText()] of the navigation
    response.  [status()] is optional because the code tests it against
    [undefined]. *)
Record HTTPResponse : Type := {
  responseStatus : option Z;
  responseHeaders : gmap string string;
  responseStatusText : string
}.

(** [FaliedAttempt] of [@xcrap/core] (the name is the package's). *)
Record FaliedAttempt : Type := {
  error : string;
  timestamp : Z
}.

(** [HttpResponse] of [@xcrap/core]. *)
Record HttpResponse : Type := {
  body : string;
  headers : gmap string string;
  status : Z;
  statusText : string;
  attempts : Z;
  failedAttempts : list FaliedAttempt
}.

(** The settings the class reads from its base class [BaseClient]:
    truthiness of [this.proxy], the getters [currentProxy],
    [currentUserAgent] and [currentProxyUrl], the predicate [isSuccess],
    and the message the base package gives an invalid-status error. *)
Record BaseClient : Type := {
  proxy : bool;
  currentProxy : option string;
  currentUserAgent : option string;
  currentProxyUrl : option string;
  isSuccess : Z -> bool;
  invalidStatusMessage : Z -> string
}.

(** Modelled from the spec: the class [InvalidStatusCodeError] of
    [@xcrap/core], which is not among the sources: an [Error] "carrying
    the observed status". *)
Definition InvalidStatusCodeError (base : BaseClient) (code : Z) : Thrown :=
  ErrorObject (invalidStatusMessage base code) (Some code).

(** [PuppeterRequestOptions]; every field but [url] is optional. *)
Module Request.
Record PuppeterRequestOptions (F : Type) : Type := {
  url : string;
  javaScriptEnabled : option bool;
  maxRetries : option Z;
  actions : option (list (PuppeteerRealBrowserClientAction F));
  retries : option Z;
  retryDelay : option Z
}.
Arguments url {F} _.
Arguments javaScriptEnabled {F} _.
Arguments maxRetries {F} _.
Arguments actions {F} _.
Arguments retries {F} _.
Arguments retryDelay {F} _.

(** The same request over other callables. *)
Definition mapActions {F G : Type} (f : F -> G)
    (request : PuppeterRequestOptions F) : PuppeterRequestOptions G :=
  {| url := url request;
     javaScriptEnabled := javaScriptEnabled request;
     maxRetries := maxRetries request;
     actions := List.map (mapAction f) <$> actions request;
     retries := retries request;
     retryDelay := retryDelay request |}.
End Request.

Section WithEngine.

(** The engine's world, its browser and page handles, and the engine
    options the client only passes through. *)
Context {W B P Passthrough : Type}.

(** An awaited engine call: it changes the world and completes. *)
Definition Eff (A : Type) : Type := W -> W * Completion A.

Definition ret {A : Type} (a : A) : Eff A := fun w => (w, Normal a).

Definition bind {A C : Type} (m : Eff A) (k : A -> Eff C) : Eff C :=
  fun w =>
    match m w with
    | (w', Normal a) => k a w'
    | (w', Throw e) => (w', Throw e)
    end.

Notation "'await' m 'into' x 'then' k" := (bind m (fun x => k))
  (at level 10, x name, m at level 100, k at level 200).
Notation "'await' m 'then' k" := (bind m (fun _ => k))
  (at level 10, m at level 100, k at level 200).

(** [PuppeteerRealBrowserClientOptions]: [args], and the rest, which
    includes [headless], handed to [connect] as it is. *)
Record PuppeteerRealBrowserClientOptions : Type := {
  args : option (list string);
  passthrough : Passthrough
}.

(** The capability surface of [puppeteer-real-browser] and of the
    runtime ([new Date()], [delay]). *)
Record Engine : Type := {
  connect : PuppeteerRealBrowserClientOptions -> Eff B;
  browser_close : B -> Eff unit;
  browser_newPage : B -> Eff P;
  page_setUserAgent : P -> string -> Eff unit;
  page_setJavaScriptEnabled : P -> bool -> Eff unit;
  page_goto : P -> string -> Eff (option HTTPResponse);
  page_content : P -> Eff string;
  page_close : P -> Eff unit;
  date_now : W -> Z;
  delay : Z -> W -> W
}.

(** A callable of the caller's: [(page: Page) => any | Promise<any>].
    It is given the page and acts on the world; it does not reach the
    fields of the client. *)
Definition ActionFunction : Type := P -> Eff unit.

(** The instance: the world and the field [this.browser]. *)
Record ClientState : Type := {
  world : W;
  browser : option B
}.

Variable engine : Engine.
Variable base : BaseClient.
Variable options : PuppeteerRealBrowserClientOptions.

(** index.ts 49-57 *)
Definition puppeteerArguments : list string :=
  (if proxy base
   then ["--proxy-server=" +:+ default "undefined" (currentProxy base)]
   else [])
  ++ match args options with
     | Some a => if (0 <? Z.of_nat (length a)) then a else []
     | None => []
     end.

(** index.ts 48-66 *)
Definition initBrowser (st : ClientState) : ClientState * Completion unit :=
  match connect engine
          {| args := Some puppeteerArguments; passthrough := passthrough options |}
          (world st) with
  | (w, Normal connectedBrowser) =>
      ({| world := w; browser := Some connectedBrowser |}, Normal tt)
  | (w, Throw e) => ({| world := w; browser := browser st |}, Throw e)
  end.

(** index.ts 68-72 *)
Definition ensureBrowser (st : ClientState) : ClientState * Completion unit :=
  match browser st with
  | None => initBrowser st
  | Some _ => (st, Normal tt)
  end.

(** index.ts 74-79 *)
Definition closeBrowser (st : ClientState) : ClientState * Completion unit :=
  match browser st with
  | Some b =>
      match browser_close engine b (world st) with
      | (w, Normal _) => ({| world := w; browser := None |}, Normal tt)
      | (w, Throw e) => ({| world := w; browser := Some b |}, Throw e)
      end
  | None => (st, Normal tt)
  end.

(** index.ts 223-227 *)
Definition close (st : ClientState) : ClientState * Completion unit :=
  match browser st with
  | Some _ => closeBrowser st
  | None => (st, Normal tt)
  end.

(** index.ts 81-89 *)
Definition configurePage (page : P) (javaScriptEnabled : option bool) : Eff unit :=
  await (if truthyString (currentUserAgent base)
         then page_setUserAgent engine page (default "" (currentUserAgent base))
         else ret tt)
  then
  match javaScriptEnabled with
  | Some enabled => page_setJavaScriptEnabled engine page enabled
  | None => ret tt
  end.

(** index.ts 116-120 *)
Fixpoint executeActions (page : P) (actions : list ActionFunction) : Eff unit :=
  match actions with
  | [] => ret tt
  | action :: rest => await action page then executeActions page rest
  end.

(** *** [fetch] (index.ts 122-197) *)

Section AttemptRequest.

(** The destructured parameters the closure [attemptRequest]
    captures, defaults applied. *)
Variable url : string.
Variable javaScriptEnabled : option bool.
Variable maxRetries : Z.
Variable actions : option (list (PuppeteerRealBrowserClientAction ActionFunction)).
Variable retryDelay : option Z.

(** Line 138. *)
Definition fullUrl : string :=
  if truthyString (currentProxyUrl base)
  then default "" (currentProxyUrl base) +:+ url
  else url.

(** Lines 147-151: the page is configured, the actions run around the
    navigation, the content is read. *)
Definition loadPage (page : P)
    (actionsBeforeRequest actionsAfterRequest : list ActionFunction)
    : Eff (option HTTPResponse * string) :=
  await configurePage page javaScriptEnabled then
  await executeActions page actionsBeforeRequest then
  await page_goto engine page fullUrl into response then
  await executeActions page actionsAfterRequest then
  await page_content engine page into content then
  ret (response, content).

(** Lines 147-152: the same, and then [await page.close()]. *)
Definition pageSteps (page : P)
    (actionsBeforeRequest actionsAfterRequest : list ActionFunction)
    : Eff (option HTTPResponse * string) :=
  await loadPage page actionsBeforeRequest actionsAfterRequest into loaded then
  await page_close engine page then
  ret loaded.

(** Lines 154-167: the status check and the Response of a success.
    The counts [currentRetry] and [attempts] are integers; a JavaScript
    number holds them exactly while they stay within 2^53. *)
Definition classify (currentRetry : Z) (failed : list FaliedAttempt)
    (response : option HTTPResponse) (content : string) : Completion HttpResponse :=
  let status := response ≫= responseStatus in
  if match status with
     | None => true
     | Some s => negb (isSuccess base s)
     end
  then Throw (InvalidStatusCodeError base (coalesceNumber status 500))
  else Normal {| body := content;
                 headers := default ∅ (responseHeaders <$> response);
                 status := orNumber (response ≫= responseStatus) 200;
                 statusText := orString (default "" (responseStatusText <$> response)) "Ok";
                 attempts := currentRetry + 1;
                 failedAttempts := failed |}.

(** The [try] block, lines 138-167.  Next to the completion it
    gives the local [page] as it stands when the block is left. *)
Definition tryBlock (currentRetry : Z) (failed : list FaliedAttempt) (st : ClientState)
    : W * option P * Completion HttpResponse :=
  let extracted := extractActions actions in
  match browser st with
  | None => (world st, None, Throw (TypeErrorUndefined "newPage"))
  | Some b =>
      match browser_newPage engine b (world st) with
      | (w, Throw e) => (w, None, Throw e)
      | (w, Normal page) =>
          match pageSteps page (before extracted) (after extracted) w with
          | (w', Throw e) => (w', Some page, Throw e)
          | (w', Normal (response, content)) =>
              (w', Some page, classify currentRetry failed response content)
          end
      end
  end.

(** Line 169. *)
Definition errorMessageOf (error : Thrown) : string :=
  match error with
  | ErrorObject message _ => message
  | _ => "Unknown error"
  end.

(** [error.status], line 188. *)
Definition errorStatus (error : Thrown) : Completion (option Z) :=
  match error with
  | ErrorObject _ s => Normal s
  | OtherValue s => Normal s
  | Nullish isNull => Throw (TypeErrorNullish isNull "status")
  end.

(** The status [error.status] of a caught value, when it can be read. *)
Definition thrownStatus (e : Thrown) : option Z :=
  match e with
  | ErrorObject _ s => s
  | OtherValue s => s
  | Nullish _ => None
  end.

(** Lines 173-175: [page.close().catch(() => { })]. *)
Definition closeQuietly (page : option P) (w : W) : W :=
  match page with
  | Some p => fst (page_close engine p w)
  | None => w
  end.

(** Lines 178-180. *)
Definition awaitRetryDelay (w : W) : W :=
  match retryDelay with
  | Some d => if 0 <? d then delay engine d w else w
  | None => w
  end.

(** Lines 185-192. *)
Definition failureResponse (currentRetry : Z) (failed : list FaliedAttempt)
    (error : Thrown) : Completion HttpResponse :=
  match errorStatus error with
  | Throw e => Throw e
  | Normal s =>
      Normal {| body := errorMessageOf error;
                headers := ∅;
                status := orNumber s 500;
                statusText := "Request Failed";
                attempts := currentRetry + 1;
                failedAttempts := failed |}
  end.

(** The record pushed at line 171. *)
Definition failedAttemptOf (error : Thrown) (w : W) : FaliedAttempt :=
  {| error := errorMessageOf error; timestamp := date_now engine w |}.

(** The closure [attemptRequest], lines 134-194.  [failed] is the
    array [failedAttempts] of the enclosing call.  The recursion is
    on [fuel]; [None] means the fuel ran out before the code
    returned. *)
Fixpoint attemptRequest (fuel : nat) (currentRetry : Z) (failed : list FaliedAttempt)
    (st : ClientState) : option (ClientState * Completion HttpResponse) :=
  match tryBlock currentRetry failed st with
  | (w, _, Normal response) => Some ({| world := w; browser := browser st |}, Normal response)
  | (w, page, Throw error) =>
      let failed := failed ++ [failedAttemptOf error w] in
      let w := closeQuietly page w in
      if currentRetry <? maxRetries
      then
        let w := awaitRetryDelay w in
        match fuel with
        | O => None
        | S fuel' =>
            attemptRequest fuel' (currentRetry + 1) failed
              {| world := w; browser := browser st |}
        end
      else
        Some ({| world := w; browser := browser st |},
              failureResponse currentRetry failed error)
  end.

(** The completions of the [try] block, attempt after attempt, in
    the run that [attemptRequest] makes from the same arguments. *)
Fixpoint attemptLog (fuel : nat) (currentRetry : Z) (failed : list FaliedAttempt)
    (st : ClientState) : list (Completion HttpResponse) :=
  match tryBlock currentRetry failed st with
  | (w, _, Normal response) => [Normal response]
  | (w, page, Throw error) =>
      Throw error ::
      (if currentRetry <? maxRetries
       then
         match fuel with
         | O => nil
         | S fuel' =>
             attemptLog fuel' (currentRetry + 1) (failed ++ [failedAttemptOf error w])
               {| world := awaitRetryDelay (closeQuietly page w); browser := browser st |}
         end
       else nil)
  end.

End AttemptRequest.

(** [fetch]: defaults, [ensureBrowser] before the closure runs, a
    fresh [failedAttempts], and the first attempt at [retries].  The
    fuel is the number of retries that remain. *)
Definition fetch (request : Request.PuppeterRequestOptions ActionFunction)
    (st : ClientState) : option (ClientState * Completion HttpResponse) :=
  let maxRetries := default 0 (Request.maxRetries request) in
  let retries := default 0 (Request.retries request) in
  match ensureBrowser st with
  | (st', Throw e) => Some (st', Throw e)
  | (st', Normal _) =>
      attemptRequest (Request.url request) (Request.javaScriptEnabled request)
        maxRetries (Request.actions request) (Request.retryDelay request)
        (Z.to_nat (maxRetries - retries)) retries [] st'
  end.

(** The attempts of a [fetch] call whose browser is available. *)
Definition fetchLog (request : Request.PuppeterRequestOptions ActionFunction)
    (st : ClientState) : list (Completion HttpResponse) :=
  let maxRetries := default 0 (Request.maxRetries request) in
  let retries := default 0 (Request.retries request) in
  match ensureBrowser st with
  | (st', Throw e) => []
  | (st', Normal _) =>
      attemptLog (Request.url request) (Request.javaScriptEnabled request)
        maxRetries (Request.actions request) (Request.retryDelay request)
        (Z.to_nat (maxRetries - retries)) retries [] st'
  end.

(** *** Calls made one after the other *)

(** A call of the public interface, awaited before the next one. *)
Inductive Call : Type :=
| CallFetch (request : Request.PuppeterRequestOptions ActionFunction)
| CallClose.

Definition perform (call : Call) (st : ClientState) : option ClientState :=
  match call with
  | CallFetch request => fst <$> fetch request st
  | CallClose => Some (fst (close st))
  end.

Fixpoint performAll (calls : list Call) (st : ClientState) : option ClientState :=
  match calls with
  | [] => Some st
  | call :: rest =>
      match perform call st with
      | Some st' => performAll rest st'
      | None => None
      end
  end.

(** *** Calls of [ensureBrowser] that overlap

    [ensureBrowser] has one [await], on [connect] (line 59), between
    the test of [this.browser] (line 69) and the store (line 65).  A
    call stands before the test, at the [await], or has completed. *)
Inductive EnsureBrowserAt : Type :=
| BeforeCheck
| AwaitingConnect
| Completed (c : Completion unit).

(** The run of one call up to its next [await] or its end. *)
Definition ensureBrowserStep (at_ : EnsureBrowserAt) (st : ClientState)
    : ClientState * EnsureBrowserAt :=
  match at_ with
  | BeforeCheck =>
      match browser st with
      | None => (st, AwaitingConnect)
      | Some _ => (st, Completed (Normal tt))
      end
  | AwaitingConnect =>
      match connect engine
              {| args := Some puppeteerArguments; passthrough := passthrough options |}
              (world st) with
      | (w, Normal connectedBrowser) =>
          ({| world := w; browser := Some connectedBrowser |}, Completed (Normal tt))
      | (w, Throw e) => ({| world := w; browser := browser st |}, Completed (Throw e))
      end
  | Completed c => (st, Completed c)
  end.

(** Several calls in flight; the schedule names the call that runs
    next. *)
Fixpoint overlapped (schedule : list nat) (st : ClientState)
    (calls : list EnsureBrowserAt) : ClientState * list EnsureBrowserAt :=
  match schedule with
  | [] => (st, calls)
  | i :: rest =>
      match calls !! i with
      | Some at_ =>
          let '(st', at') := ensureBrowserStep at_ st in
          overlapped rest st' (<[i := at']> calls)
      | None => overlapped rest st calls
      end
  end.

(** *** Calls of [fetch] and [close] that overlap

    [this.browser] is read or written at lines 65, 69, 75-77, 145 and
    224, and a browser is started or closed at lines 59 and 76; these are
    the places where calls in flight meet.  A call of [close] passes both
    tests and calls [browser.close()] before its [await] (lines 224, 75,
    76) and clears the field after it (line 77). *)
Inductive CloseAt : Type :=
| BeforeCloseCheck
| AwaitingBrowserClose (b : B)
| CloseCompleted (c : Completion unit).

Definition closeStep (at_ : CloseAt) (st : ClientState) : ClientState * CloseAt :=
  match at_ with
  | BeforeCloseCheck =>
      match browser st with
      | Some b => (st, AwaitingBrowserClose b)
      | None => (st, CloseCompleted (Normal tt))
      end
  | AwaitingBrowserClose b =>
      match browser_close engine b (world st) with
      | (w, Normal _) => ({| world := w; browser := None |}, CloseCompleted (Normal tt))
      | (w, Throw e) => ({| world := w; browser := browser st |}, CloseCompleted (Throw e))
      end
  | CloseCompleted c => (st, CloseCompleted c)
  end.

(** A call in flight: a [fetch] in its [ensureBrowser] (line 130), a
    [fetch] about to run [attemptRequest(currentRetry)] (line 182) with
    the [failedAttempts] it has collected, a [fetch] that has settled, or
    a [close]. *)
Inductive InFlight : Type :=
| Fetching (request : Request.PuppeterRequestOptions ActionFunction) (at_ : EnsureBrowserAt)
| Attempting (request : Request.PuppeterRequestOptions ActionFunction)
    (currentRetry : Z) (failed : list FaliedAttempt)
| FetchSettled (c : Completion HttpResponse)
| Closing (at_ : CloseAt).

(** One run of the closure body, lines 135-193: the attempt reads
    [this.browser] as it begins (line 145) and not again; it ends with
    the Response returned or, after [page.close()] and the delay, at the
    call of the next attempt (line 182).  Within the attempt the calls
    are on the attempt's own page; the field is not written and no
    browser is started or closed. *)
Definition attemptStep (request : Request.PuppeterRequestOptions ActionFunction)
    (currentRetry : Z) (failed : list FaliedAttempt) (st : ClientState)
    : ClientState * InFlight :=
  match tryBlock (Request.url request) (Request.javaScriptEnabled request)
          (Request.actions request) currentRetry failed st with
  | (w, _, Normal response) =>
      ({| world := w; browser := browser st |}, FetchSettled (Normal response))
  | (w, page, Throw error) =>
      let failed := failed ++ [failedAttemptOf error w] in
      let w := closeQuietly page w in
      if currentRetry <? default 0 (Request.maxRetries request)
      then ({| world := awaitRetryDelay (Request.retryDelay request) w;
               browser := browser st |},
            Attempting request (currentRetry + 1) failed)
      else ({| world := w; browser := browser st |},
            FetchSettled (failureResponse currentRetry failed error))
  end.

(** The run of one call up to the next point where another call may
    run, or to its end.  When [ensureBrowser] has completed, [fetch] goes
    on to line 196 and into the first attempt. *)
Definition advance (call : InFlight) (st : ClientState) : ClientState * InFlight :=
  match call with
  | Fetching request (Completed (Normal _)) =>
      attemptStep request (default 0 (Request.retries request)) [] st
  | Fetching request (Completed (Throw e)) => (st, FetchSettled (Throw e))
  | Fetching request at_ =>
      (fst (ensureBrowserStep at_ st), Fetching request (snd (ensureBrowserStep at_ st)))
  | Attempting request currentRetry failed => attemptStep request currentRetry failed st
  | FetchSettled c => (st, FetchSettled c)
  | Closing at_ => (fst (closeStep at_ st), Closing (snd (closeStep at_ st)))
  end.

Definition start (call : Call) : InFlight :=
  match call with
  | CallFetch request => Fetching request BeforeCheck
  | CallClose => Closing BeforeCloseCheck
  end.

(** Calls in flight; the schedule names the call that runs next. *)
Fixpoint interleaved (schedule : list nat) (st : ClientState) (calls : list InFlight)
    : ClientState * list InFlight :=
  match schedule with
  | [] => (st, calls)
  | i :: rest =>
      match calls !! i with
      | Some call =>
          interleaved rest (fst (advance call st)) (<[i := snd (advance call st)]> calls)
      | None => interleaved rest st calls
      end
  end.






End WithEngine.

Arguments Eff : clear implicits.
Arguments Engine : clear implicits.
Arguments Call : clear implicits.
Arguments InFlight : clear implicits.
Arguments ActionFunction : clear implicits.
Arguments ClientState : clear implicits.
Arguments PuppeteerRealBrowserClientOptions : clear implicits.

(** *** The browsers that are live

    Any engine, with a ledger next to its world: [connect] enters the
    browser it starts, [browser.close()] strikes the browser it closes,
    every other call leaves the ledger alone.  A caller's action acts on
    the world and cannot reach the ledger. *)
Section Ledger.

Context {W B P Passthrough : Type} `{EqDecision B}.
Variable engine : Engine W B P Passthrough.

Definition withLedger {A : Type} (m : Eff W A) : Eff (W * list B) A :=
  fun wl => ((fst (m (fst wl)), snd wl), snd (m (fst wl))).

Definition tracked : Engine (W * list B) B P Passthrough :=
  {| connect := fun opts wl =>
       match connect engine opts (fst wl) with
       | (w, Normal b) => ((w, b :: snd wl), Normal b)
       | (w, Throw e) => ((w, snd wl), Throw e)
       end;
     browser_close := fun b wl =>
       match browser_close engine b (fst wl) with
       | (w, Normal u) => ((w, List.remove (decide_rel (=)) b (snd wl)), Normal u)
       | (w, Throw e) => ((w, snd wl), Throw e)
       end;
     browser_newPage := fun b => withLedger (browser_newPage engine b);
     page_setUserAgent := fun page ua => withLedger (page_setUserAgent engine page ua);
     page_setJavaScriptEnabled := fun page enabled =>
       withLedger (page_setJavaScriptEnabled engine page enabled);
     page_goto := fun page target => withLedger (page_goto engine page target);
     page_content := fun page => withLedger (page_content engine page);
     page_close := fun page => withLedger (page_close engine page);
     date_now := fun wl => date_now engine (fst wl);
     delay := fun d wl => (delay engine d (fst wl), snd wl) |}.

Definition trackedAction (action : ActionFunction W P) : ActionFunction (W * list B) P :=
  fun page => withLedger (action page).

Definition trackedCall (call : Call W P) : Call (W * list B) P :=
  match call with
  | CallFetch request => CallFetch (Request.mapActions trackedAction request)
  | CallClose => CallClose
  end.

Definition liveBrowsers (st : ClientState (W * list B) B) : list B := snd (world st).

(** The browsers that are live are the stored handle, if there is one. *)
Definition ledgerMatches (st : ClientState (W * list B) B) : Prop :=
  liveBrowsers st = match browser st with Some b => [b] | None => [] end.

(** An awaited call that leaves the ledger as it found it. *)
Definition KeepsLedger {A : Type} (m : Eff (W * list B) A) : Prop :=
  forall wl, snd (fst (m wl)) = snd wl.


End Ledger.

End Client.

(** ** A scripted engine

    An engine whose pages answer from a script, in the manner of the
    capability mock a test of the client would use: the world holds the
    pages still to be opened, each with the completion of every call made
    on it, the completions of [connect] and of [browser.close()], a count
    of engine starts and a clock.  The handle of a browser is its rank
    among the starts. *)

Module Scripted.
Import Client.

Record Page : Type := {
  onSetUserAgent : Completion unit;
  onSetJavaScriptEnabled : Completion unit;
  onGoto : Completion (option HTTPResponse);
  onContent : Completion string;
  onClose : Completion unit
}.

Record World : Type := {
  clock : Z;
  pagesToOpen : list (Completion Page);
  connectOutcome : Completion unit;
  browserCloseOutcome : Completion unit;
  launched : nat
}.

Definition tick (w : World) : World :=
  {| clock := clock w + 1;
     pagesToOpen := pagesToOpen w;
     connectOutcome := connectOutcome w;
     browserCloseOutcome := browserCloseOutcome w;
     launched := launched w |}.

Definition engine : Engine World nat Page unit :=
  {| connect := fun _ w =>
       ({| clock := clock w;
           pagesToOpen := pagesToOpen w;
           connectOutcome := connectOutcome w;
           browserCloseOutcome := browserCloseOutcome w;
           launched := S (launched w) |},
        match connectOutcome w with
        | Normal _ => Normal (S (launched w))
        | Throw e => Throw e
        end);
     browser_close := fun _ w => (w, browserCloseOutcome w);
     browser_newPage := fun _ w =>
       match pagesToOpen w with
       | [] => (w, Throw (ErrorObject "Target closed" None))
       | page :: rest =>
           ({| clock := clock w + 1;
               pagesToOpen := rest;
               connectOutcome := connectOutcome w;
               browserCloseOutcome := browserCloseOutcome w;
               launched := launched w |}, page)
       end;
     page_setUserAgent := fun page _ w => (w, onSetUserAgent page);
     page_setJavaScriptEnabled := fun page _ w => (w, onSetJavaScriptEnabled page);
     page_goto := fun page _ w => (tick w, onGoto page);
     page_content := fun page w => (w, onContent page);
     page_close := fun page w => (w, onClose page);
     date_now := clock;
     delay := fun d w =>
       {| clock := clock w + d;
          pagesToOpen := pagesToOpen w;
          connectOutcome := connectOutcome w;
          browserCloseOutcome := browserCloseOutcome w;
          launched := launched w |} |}.

(** A base client without proxy or user agent that accepts 2xx. *)
Definition base : BaseClient :=
  {| proxy := false;
     currentProxy := None;
     currentUserAgent := None;
     currentProxyUrl := None;
     isSuccess := fun s => (200 <=? s) && (s <? 300);
     invalidStatusMessage := fun _ => "Invalid status code" |}.

Definition options : PuppeteerRealBrowserClientOptions unit :=
  {| args := None; passthrough := tt |}.

Definition response (code : Z) : HTTPResponse :=
  {| responseStatus := Some code; responseHeaders := ∅; responseStatusText := "" |}.

(** A page on which every call succeeds and navigation answers [code]. *)
Definition pageAnswering (code : Z) : Page :=
  {| onSetUserAgent := Normal tt;
     onSetJavaScriptEnabled := Normal tt;
     onGoto := Normal (Some (response code));
     onContent := Normal "<html></html>";
     onClose := Normal tt |}.

(** A page whose navigation throws. *)
Definition pageFailingNavigation (message : string) : Page :=
  {| onSetUserAgent := Normal tt;
     onSetJavaScriptEnabled := Normal tt;
     onGoto := Throw (ErrorObject message None);
     onContent := Normal "";
     onClose := Normal tt |}.

(** A page that answers 200 and whose [close()] throws. *)
Definition pageFailingClose : Page :=
  {| onSetUserAgent := Normal tt;
     onSetJavaScriptEnabled := Normal tt;
     onGoto := Normal (Some (response 200));
     onContent := Normal "<html></html>";
     onClose := Throw (ErrorObject "Protocol error: Target.closeTarget" None) |}.


(** A page whose navigation resolves to [null]. *)
Definition pageWithoutResponse : Page :=
  {| onSetUserAgent := Normal tt;
     onSetJavaScriptEnabled := Normal tt;
     onGoto := Normal None;
     onContent := Normal "<html></html>";
     onClose := Normal tt |}.

Definition worldWith (pages : list (Completion Page)) : World :=
  {| clock := 1000;
     pagesToOpen := pages;
     connectOutcome := Normal tt;
     browserCloseOutcome := Normal tt;
     launched := 0 |}.

(** A world in which the engine cannot be started. *)
Definition worldWithoutEngine : World :=
  {| clock := 1000;
     pagesToOpen := [];
     connectOutcome := Throw (ErrorObject "Failed to launch the browser process" None);
     browserCloseOutcome := Normal tt;
     launched := 0 |}.

Definition fresh (w : World) : ClientState World nat :=
  {| world := w; browser := None |}.

Definition request (maxRetries : option Z)
    (actions : option (list (Actions.PuppeteerRealBrowserClientAction (ActionFunction World Page))))
    : Request.PuppeterRequestOptions (ActionFunction World Page) :=
  {| Request.url := "https://example.com";
     Request.javaScriptEnabled := None;
     Request.maxRetries := maxRetries;
     Request.actions := actions;
     Request.retries := None;
     Request.retryDelay := None |}.

(** An action that rejects without a reason: [() => Promise.reject()]. *)
Definition rejectingAction : ActionFunction World Page :=
  fun _ w => (w, Throw (Nullish false)).

(** An action that takes [ms] of the clock and completes. *)
Definition waitingAction (ms : Z) : ActionFunction World Page :=
  fun _ w =>
    ({| clock := clock w + ms;
        pagesToOpen := pagesToOpen w;
        connectOutcome := connectOutcome w;
        browserCloseOutcome := browserCloseOutcome w;
        launched := launched w |}, Normal tt).

(** An engine like [e], except that [browser.close()] throws. *)
Definition failingBrowserClose (e : Engine World nat Page unit) : Engine World nat Page unit :=
  {| connect := connect e;
     browser_close := fun _ w => (w, Throw (ErrorObject "Protocol error: Browser.close" None));
     browser_newPage := browser_newPage e;
     page_setUserAgent := page_setUserAgent e;
     page_setJavaScriptEnabled := page_setJavaScriptEnabled e;
     page_goto := page_goto e;
     page_content := page_content e;
     page_close := page_close e;
     date_now := date_now e;
     delay := delay e |}.

(** A base client with a user agent and a proxy URL. *)
Definition baseWithAgent : BaseClient :=
  {| proxy := true;
     currentProxy := Some "http://127.0.0.1:8080";
     currentUserAgent := Some "Mozilla/5.0";
     currentProxyUrl := Some "https://proxy.example/?target=";
     isSuccess := fun s => (200 <=? s) && (s <? 300);
     invalidStatusMessage := fun _ => "Invalid status code" |}.

(** Calls that overlap on one client: a [fetch] that may retry once, a
    second [fetch], a [close], and a [fetch] made after it; the order in
    which they run; and the pages the engine opens for them, the first
    answering 503. *)
Definition overlappingCalls : list (Call World Page) :=
  [CallFetch (request (Some 1) None); CallFetch (request None None);
   CallClose; CallFetch (request None None)].

Definition overlappingSchedule : list nat := [0; 0; 1; 0; 1; 2; 0; 2; 3; 3; 3]%nat.

Definition overlappingPages : World :=
  worldWith [Normal (pageAnswering 503); Normal (pageAnswering 200);
             Normal (pageAnswering 200); Normal (pageAnswering 200)].

End Scripted.

(** ** Fan-out ([fetchMany], index.ts 199-221)

    One thread runs [fetchMany] and the tasks it starts; a task runs while
    [fetchMany] is parked at an [await].  A schedule says, step by step,
    whether [fetchMany] moves on or which task settles. *)

Module FanOut.

Inductive PromiseState : Type :=
| Pending
| Fulfilled
| Rejected (e : Thrown).

Inductive Event : Type :=
| Main
| Settle (id : nat).

Section FetchMany.

Context {Request Response : Type}.

(** The task started for one request: the arguments [request] and
    [index] of [executeRequest], and the state of its promise. *)
Record Task : Type := {
  request : Request;
  index : nat;
  promise : PromiseState
}.

(** Where [fetchMany] stands: at the head of the loop with counter
    [i], parked in [await this.handleConcurrency(executing)] of turn
    [i], parked in [await Promise.all(executing)], or settled. *)
Inductive Control : Type :=
| AtLoop (i : nat)
| InHandleConcurrency (i : nat)
| InPromiseAll
| Resolved (returned : gmap nat Response)
| RejectedWith (e : Thrown).

(** [results] is the array of the call, a map from index to entry;
    [executing] holds promises, named by the position of their task in
    [tasks]. *)
Record State : Type := {
  control : Control;
  results : gmap nat Response;
  tasks : list Task;
  executing : list nat
}.

Variable requests : list Request.
Variable concurrency : option Z.

(** What [this.fetch(request)] completes with in the task of a given
    index. *)
Variable fetchOutcome : nat -> Request -> Completion Response.

(** [shouldThrottle] and [handleConcurrency] of [BaseClient]
    ([@xcrap/core]).  [handleConcurrency] sees the promises of
    [executing] with their states; it gives [None] while it stays
    parked, else the array as it leaves it and its completion. *)
Variable shouldThrottle : list nat -> option Z -> bool.
Variable handleConcurrency :
  list (nat * PromiseState) -> option (list nat * Completion unit).

Definition promiseOf (ts : list Task) (id : nat) : PromiseState :=
  match ts !! id with
  | Some t => promise t
  | None => Pending
  end.

(** Modelled from the spec: [executeRequest] of [BaseClient]
    ([@xcrap/core]), which is not among the sources: it awaits
    [this.fetch(request)] and places the Response in [results] at
    [index]; its promise rejects when the fetch does. *)
Definition settleTask (id : nat) (st : State) : option State :=
  match tasks st !! id with
  | Some t =>
      match promise t with
      | Pending =>
          match fetchOutcome (index t) (request t) with
          | Normal response =>
              Some {| control := control st;
                      results := <[index t := response]> (results st);
                      tasks := <[id := {| request := request t; index := index t;
                                          promise := Fulfilled |}]> (tasks st);
                      executing := executing st |}
          | Throw e =>
              Some {| control := control st;
                      results := results st;
                      tasks := <[id := {| request := request t; index := index t;
                                          promise := Rejected e |}]> (tasks st);
                      executing := executing st |}
          end
      | _ => None
      end
  | None => None
  end.

(** [Promise.all(executing)]: rejected as soon as one promise is,
    fulfilled once all are, parked otherwise. *)
Fixpoint promiseAll (ts : list Task) (ids : list nat) : option (Completion unit) :=
  match ids with
  | [] => Some (Normal tt)
  | id :: rest =>
      match promiseOf ts id with
      | Rejected e => Some (Throw e)
      | Fulfilled => promiseAll ts rest
      | Pending =>
          match promiseAll ts rest with
          | Some (Throw e) => Some (Throw e)
          | _ => None
          end
      end
  end.

(** One move of [fetchMany] itself (lines 203-220). *)
Definition mainStep (st : State) : option State :=
  match control st with
  | AtLoop i =>
      match requests !! i with
      | Some req =>
          let id := length (tasks st) in
          let tasks' := tasks st ++ [{| request := req; index := i; promise := Pending |}] in
          let executing' := executing st ++ [id] in
          Some {| control := if shouldThrottle executing' concurrency
                             then InHandleConcurrency i
                             else AtLoop (S i);
                  results := results st;
                  tasks := tasks';
                  executing := executing' |}
      | None =>
          Some {| control := InPromiseAll;
                  results := results st;
                  tasks := tasks st;
                  executing := executing st |}
      end
  | InHandleConcurrency i =>
      match handleConcurrency (map (fun id => (id, promiseOf (tasks st) id)) (executing st)) with
      | Some (executing', Normal _) =>
          Some {| control := AtLoop (S i);
                  results := results st;
                  tasks := tasks st;
                  executing := executing' |}
      | Some (executing', Throw e) =>
          Some {| control := RejectedWith e;
                  results := results st;
                  tasks := tasks st;
                  executing := executing' |}
      | None => None
      end
  | InPromiseAll =>
      match promiseAll (tasks st) (executing st) with
      | Some (Normal _) =>
          Some {| control := Resolved (results st);
                  results := results st;
                  tasks := tasks st;
                  executing := executing st |}
      | Some (Throw e) =>
          Some {| control := RejectedWith e;
                  results := results st;
                  tasks := tasks st;
                  executing := executing st |}
      | None => None
      end
  | Resolved _ => None
  | RejectedWith _ => None
  end.

Definition step (st : State) (ev : Event) : option State :=
  match ev with
  | Main => mainStep st
  | Settle id => settleTask id st
  end.

(** A schedule, run from a state; [None] when it asks for a move that
    cannot be made. *)
Fixpoint run (schedule : list Event) (st : State) : option State :=
  match schedule with
  | [] => Some st
  | ev :: rest =>
      match step st ev with
      | Some st' => run rest st'
      | None => None
      end
  end.

(** Lines 200-201. *)
Definition initial : State :=
  {| control := AtLoop 0; results := ∅; tasks := []; executing := [] |}.

Definition fetchMany (schedule : list Event) : option State :=
  run schedule initial.

(** Modelled from the spec: what the spec lets [fetchMany] rely on in
    [handleConcurrency] of [BaseClient]: whatever it takes out of
    [executing], it takes out no promise that is still pending. *)
Definition DropsOnlySettled : Prop :=
  forall seen executing' c,
    handleConcurrency seen = Some (executing', c) ->
    forall id, (id, Pending) ∈ seen -> id ∈ executing'.

(** What holds of every state a schedule reaches: the task at position
    [k] was started for [requests[k]] with index [k]; a fulfilled task has
    its Response in [results] at its index, a rejected one the error of
    its fetch; [results] holds nothing else; a pending promise is in
    [executing]; and [fetchMany] is where the number of tasks says. *)
Record Invariant (st : State) : Prop := {
  inv_tasks : forall k t,
    tasks st !! k = Some t -> index t = k /\ requests !! k = Some (request t);
  inv_fulfilled : forall k t,
    tasks st !! k = Some t -> promise t = Fulfilled ->
    exists r, fetchOutcome k (request t) = Normal r /\ results st !! k = Some r;
  inv_rejected : forall k t e,
    tasks st !! k = Some t -> promise t = Rejected e ->
    fetchOutcome k (request t) = Throw e;
  inv_results : forall i r,
    results st !! i = Some r ->
    exists t, tasks st !! i = Some t /\ promise t = Fulfilled
              /\ fetchOutcome i (request t) = Normal r;
  inv_pending : forall k t,
    tasks st !! k = Some t -> promise t = Pending -> k ∈ executing st;
  inv_control :
    match control st with
    | AtLoop i => length (tasks st) = i
    | InHandleConcurrency i => length (tasks st) = S i
    | InPromiseAll => (length requests <= length (tasks st))%nat
    | Resolved returned =>
        returned = results st
        /\ (length requests <= length (tasks st))%nat
        /\ forall k t, tasks st !! k = Some t -> promise t <> Pending
    | RejectedWith _ => True
    end
}.

End FetchMany.

(** A base client for the scripted runs: it throttles at [concurrency]
    promises, and waits in [handleConcurrency] until one of them has
    settled, then drops the settled ones. *)
Definition throttleAtBound (executing : list nat) (concurrency : option Z) : bool :=
  match concurrency with
  | Some bound => bound <=? Z.of_nat (length executing)
  | None => false
  end.

Definition isPending (p : PromiseState) : bool :=
  match p with
  | Pending => true
  | _ => false
  end.

Definition dropSettled (seen : list (nat * PromiseState))
    : option (list nat * Completion unit) :=
  if forallb (fun entry => isPending (snd entry)) seen
  then None
  else Some (map fst (List.filter (fun entry => isPending (snd entry)) seen), Normal tt).

End FanOut.

(** ** The calls an engine receives

    Any engine, with a record of the calls made on it next to its world:
    every call of the capability surface, [delay] and every action of the
    caller enters its name when it is made, however it completes.  An
    action is named by a label of the caller's choice. *)

Module Trace.
Import Actions Client.

Inductive EngineCall : Type :=
| CallConnect (arguments : option (list string))
| CallBrowserClose
| CallNewPage
| CallSetUserAgent (userAgent : string)
| CallSetJavaScriptEnabled (enabled : bool)
| CallGoto (target : string)
| CallContent
| CallPageClose
| CallDelay (ms : Z)
| CallAction (label : nat).

Section Recorder.

Context {W B P Passthrough : Type}.
Variable engine : Engine W B P Passthrough.

Definition recording {A : Type} (call : EngineCall) (m : Eff W A)
    : Eff (W * list EngineCall) A :=
  fun wl => ((fst (m (fst wl)), snd wl ++ [call]), snd (m (fst wl))).

Definition recorded : Engine (W * list EngineCall) B P Passthrough :=
  {| connect := fun opts => recording (CallConnect (args opts)) (connect engine opts);
     browser_close := fun b => recording CallBrowserClose (browser_close engine b);
     browser_newPage := fun b => recording CallNewPage (browser_newPage engine b);
     page_setUserAgent := fun page ua =>
       recording (CallSetUserAgent ua) (page_setUserAgent engine page ua);
     page_setJavaScriptEnabled := fun page enabled =>
       recording (CallSetJavaScriptEnabled enabled)
         (page_setJavaScriptEnabled engine page enabled);
     page_goto := fun page target => recording (CallGoto target) (page_goto engine page target);
     page_content := fun page => recording CallContent (page_content engine page);
     page_close := fun page => recording CallPageClose (page_close engine page);
     date_now := fun wl => date_now engine (fst wl);
     delay := fun d wl => (delay engine d (fst wl), snd wl ++ [CallDelay d]) |}.

(** A callable with its label, and the same callable on the recording
    engine. *)
Definition Labelled : Type := nat * ActionFunction W P.

Definition recordedAction (action : Labelled) : ActionFunction (W * list EngineCall) P :=
  fun page => recording (CallAction (fst action)) (snd action page).

(** The calls made so far. *)
Definition callsOf (st : ClientState (W * list EngineCall) B) : list EngineCall :=
  snd (world st).

(** The calls of [configurePage] (lines 81-89), of an attempt whose
    every call completes (lines 145-152), and the count of [delay]s in a
    record. *)
Definition configureCalls (base : BaseClient) (javaScriptEnabled : option bool)
    : list EngineCall :=
  (if truthyString (currentUserAgent base)
   then [CallSetUserAgent (default "" (currentUserAgent base))]
   else [])
  ++ match javaScriptEnabled with
     | Some enabled => [CallSetJavaScriptEnabled enabled]
     | None => []
     end.

Definition actionCalls (actions : list Labelled) : list EngineCall :=
  map (fun action => CallAction (fst action)) actions.

Definition pageCalls (base : BaseClient) (url : string) (javaScriptEnabled : option bool)
    (actions : option (list (PuppeteerRealBrowserClientAction Labelled)))
    : list EngineCall :=
  configureCalls base javaScriptEnabled
  ++ actionCalls (before (extractActions actions))
  ++ [CallGoto (fullUrl base url)]
  ++ actionCalls (after (extractActions actions))
  ++ [CallContent; CallPageClose].

Definition isDelay (call : EngineCall) : bool :=
  match call with
  | CallDelay _ => true
  | _ => false
  end.

Definition countDelays (calls : list EngineCall) : nat :=
  length (List.filter isDelay calls).

(** An awaited call that adds to the record a prefix of [calls], all of
    them when it completes normally. *)
Definition Appends {A : Type} (m : Eff (W * list EngineCall) A) (calls : list EngineCall)
    : Prop :=
  forall wl,
    exists n,
      snd (fst (m wl)) = snd wl ++ take n calls
      /\ (forall a, snd (m wl) = Normal a -> take n calls = calls).

End Recorder.

Arguments Labelled : clear implicits.

End Trace.

(** * Properties *)

(** ** The action classifier *)

Module ActionsFacts.
Import Actions.

Section Classifier.

Context {F : Type}.
Implicit Types (actions : list (PuppeteerRealBrowserClientAction F)).

Lemma beforeBucket_app (l1 l2 : list (PuppeteerRealBrowserClientAction F)) :
  beforeBucket (l1 ++ l2) = beforeBucket l1 ++ beforeBucket l2.
Proof. unfold beforeBucket. by rewrite List.filter_app, map_app. Qed.

Lemma afterBucket_app (l1 l2 : list (PuppeteerRealBrowserClientAction F)) :
  afterBucket (l1 ++ l2) = afterBucket l1 ++ afterBucket l2.
Proof. unfold afterBucket. by rewrite List.filter_app, map_app. Qed.

Lemma isBefore_actionType (action : PuppeteerRealBrowserClientAction F) :
  isBefore action = String.eqb (actionType action) "beforeRequest".
Proof.
  destruct action as [f | t e]; unfold isBefore; simpl; [done |].
  by destruct (String.eqb t "beforeRequest").
Qed.

(** The loop, started from any two arrays, appends the two
    sub-sequences to them. *)
Lemma extractActions_loop actions (b a : list F) :
  fold_left extractActions_body actions (b, a)
  = (b ++ beforeBucket actions, a ++ afterBucket actions).
Proof.
  revert b a. induction actions as [| action rest IH]; intros b a; cbn [fold_left].
  - unfold beforeBucket, afterBucket. simpl. by rewrite !app_nil_r.
  - assert (extractActions_body (b, a) action
            = if isBefore action
              then (b ++ [actionFunc action], a)
              else (b, a ++ [actionFunc action])) as ->
      by (unfold extractActions_body; by rewrite <- isBefore_actionType).
    unfold beforeBucket, afterBucket in *. cbn [List.filter].
    destruct (isBefore action); rewrite IH; simpl; by rewrite <- !app_assoc.
Qed.

Lemma extractActions_buckets actions :
  extractActions (Some actions)
  = {| before := beforeBucket actions; after := afterBucket actions |}.
Proof. unfold extractActions. by rewrite extractActions_loop. Qed.

Lemma bucket_lengths actions :
  (length (beforeBucket actions) + length (afterBucket actions))%nat = length actions.
Proof.
  unfold beforeBucket, afterBucket. rewrite !length_map.
  induction actions as [| action rest IH]; simpl; [done |].
  destruct (isBefore action); simpl; lia.
Qed.

End Classifier.

(** C6. [extractActions] splits its list into the callables to run
    before navigation and those to run after it, each bucket in input
    order: the result on [l1 ++ a :: l2] is the result on [l1], then [a]
    in its bucket, then the result on [l2].  A bare callable lands in
    [after], a descriptor tagged "beforeRequest" in [before], one tagged
    "afterRequest" in [after]; an absent list and an empty one give two
    empty buckets; the two buckets are the two filtered sub-sequences of
    the spec; and the list (bare, before, after) gives before = the one
    before-callable, after = the bare one and the after one. *)
Theorem extractActions_partition (F : Type) :
  (forall (l1 l2 : list (PuppeteerRealBrowserClientAction F)) (f : F),
      extractActions (Some (l1 ++ ActionFunction f :: l2))
      = {| before := before (extractActions (Some l1)) ++ before (extractActions (Some l2));
           after := after (extractActions (Some l1)) ++ f :: after (extractActions (Some l2)) |})
  /\ (forall (l1 l2 : list (PuppeteerRealBrowserClientAction F)) (g : F),
      extractActions (Some (l1 ++ ActionObject "beforeRequest" g :: l2))
      = {| before := before (extractActions (Some l1)) ++ g :: before (extractActions (Some l2));
           after := after (extractActions (Some l1)) ++ after (extractActions (Some l2)) |})
  /\ (forall (l1 l2 : list (PuppeteerRealBrowserClientAction F)) (h : F),
      extractActions (Some (l1 ++ ActionObject "afterRequest" h :: l2))
      = {| before := before (extractActions (Some l1)) ++ before (extractActions (Some l2));
           after := after (extractActions (Some l1)) ++ h :: after (extractActions (Some l2)) |})
  /\ extractActions (@None (list (PuppeteerRealBrowserClientAction F)))
     = {| before := []; after := [] |}
  /\ extractActions (Some (@nil (PuppeteerRealBrowserClientAction F)))
     = {| before := []; after := [] |}
  /\ (forall actions : list (PuppeteerRealBrowserClientAction F),
      extractActions (Some actions)
      = {| before := beforeBucket actions; after := afterBucket actions |})
  /\ (forall f g h : F,
      extractActions
        (Some [ActionFunction f; ActionObject "beforeRequest" g; ActionObject "afterRequest" h])
      = {| before := [g]; after := [f; h] |}).
Proof.
  repeat split; try reflexivity.
  - intros l1 l2 f. rewrite !extractActions_buckets. simpl.
    by rewrite beforeBucket_app, afterBucket_app.
  - intros l1 l2 g. rewrite !extractActions_buckets. simpl.
    by rewrite beforeBucket_app, afterBucket_app.
  - intros l1 l2 h. rewrite !extractActions_buckets. simpl.
    by rewrite beforeBucket_app, afterBucket_app.
  - intros actions. apply extractActions_buckets.
Qed.

(** C10. [extractActions] drops no action: the two buckets together are
    as long as the input.  A descriptor whose tag is any string other
    than "beforeRequest", a misspelt one included, lands in [after] and
    leaves [before] as it is without it. *)
Theorem extractActions_keeps_every_action (F : Type) :
  (forall actions : list (PuppeteerRealBrowserClientAction F),
      (length (before (extractActions (Some actions)))
       + length (after (extractActions (Some actions))))%nat = length actions)
  /\ (forall (l1 l2 : list (PuppeteerRealBrowserClientAction F)) (tag : string) (f : F),
      tag <> "beforeRequest" ->
      extractActions (Some (l1 ++ ActionObject tag f :: l2))
      = {| before := before (extractActions (Some l1)) ++ before (extractActions (Some l2));
           after := after (extractActions (Some l1)) ++ f :: after (extractActions (Some l2)) |}).
Proof.
  split.
  - intros actions. rewrite extractActions_buckets. simpl. apply bucket_lengths.
  - intros l1 l2 tag f Htag. rewrite !extractActions_buckets. simpl.
    rewrite beforeBucket_app, afterBucket_app.
    assert (isBefore (ActionObject tag f) = false) as Hphase.
    { unfold isBefore, phaseOf. apply String.eqb_neq in Htag. by rewrite Htag. }
    unfold beforeBucket, afterBucket. cbn [List.filter].
    by rewrite Hphase.
Qed.

(** A misspelt tag, between a before-descriptor and a bare callable. *)
Lemma extractActions_keeps_every_action_witness :
  "beforRequest" <> "beforeRequest"
  /\ extractActions
       (Some ([ActionObject "beforeRequest" 1%nat]
                ++ ActionObject "beforRequest" 2%nat :: [ActionFunction 3%nat]))
     = {| before := [1%nat]; after := [2%nat; 3%nat] |}.
Proof.
  split; [discriminate |].
  apply (proj2 (extractActions_keeps_every_action nat)
           [ActionObject "beforeRequest" 1%nat] [ActionFunction 3%nat] "beforRequest" 2%nat).
  discriminate.
Defined.

End ActionsFacts.

(** ** The retry engine *)

Module RetryFacts.
Import Actions Client.

Section AttemptRequest.

Context {W B P Passthrough : Type}.
Variable engine : Engine W B P Passthrough.
Variable base : BaseClient.
Variable url : string.
Variable javaScriptEnabled : option bool.
Variable maxRetries : Z.
Variable actions : option (list (PuppeteerRealBrowserClientAction (ActionFunction W P))).
Variable retryDelay : option Z.

Abbreviation tryBlock := (tryBlock engine base url javaScriptEnabled actions).
Abbreviation attemptRequest :=
  (attemptRequest engine base url javaScriptEnabled maxRetries actions retryDelay).
Abbreviation attemptLog :=
  (attemptLog engine base url javaScriptEnabled maxRetries actions retryDelay).

Lemma attemptRequest_unfold fuel currentRetry failed (st : ClientState W B) :
  attemptRequest fuel currentRetry failed st
  = match tryBlock currentRetry failed st with
    | (w, _, Normal response) =>
        Some ({| world := w; browser := browser st |}, Normal response)
    | (w, page, Throw error) =>
        if currentRetry <? maxRetries
        then
          match fuel with
          | O => None
          | S fuel' =>
              attemptRequest fuel' (currentRetry + 1)
                (failed ++ [failedAttemptOf engine error w])
                {| world := awaitRetryDelay engine retryDelay (closeQuietly engine page w);
                   browser := browser st |}
          end
        else
          Some ({| world := closeQuietly engine page w; browser := browser st |},
                failureResponse currentRetry
                  (failed ++ [failedAttemptOf engine error w]) error)
    end.
Proof. destruct fuel; reflexivity. Qed.

Lemma attemptLog_unfold fuel currentRetry failed (st : ClientState W B) :
  attemptLog fuel currentRetry failed st
  = match tryBlock currentRetry failed st with
    | (w, _, Normal response) => [Normal response]
    | (w, page, Throw error) =>
        Throw error ::
        (if currentRetry <? maxRetries
         then
           match fuel with
           | O => nil
           | S fuel' =>
               attemptLog fuel' (currentRetry + 1)
                 (failed ++ [failedAttemptOf engine error w])
                 {| world := awaitRetryDelay engine retryDelay (closeQuietly engine page w);
                    browser := browser st |}
           end
         else nil)
    end.
Proof. destruct fuel; reflexivity. Qed.

(** What the status check lets through carries the attempt's number
    and the array of the call. *)
Lemma classify_Normal currentRetry failed response content r :
  classify base currentRetry failed response content = Normal r ->
  attempts r = currentRetry + 1 /\ failedAttempts r = failed /\ body r = content
  /\ exists s, response ≫= responseStatus = Some s /\ isSuccess base s = true
               /\ status r = orNumber (Some s) 200.
Proof.
  unfold classify. destruct (response ≫= responseStatus) as [s |] eqn:Hs; [| done].
  destruct (isSuccess base s) eqn:Hok; simpl; [| done].
  intros [= <-]. simpl. eauto 10.
Qed.

Lemma tryBlock_Normal currentRetry failed (st : ClientState W B) w page r :
  tryBlock currentRetry failed st = (w, page, Normal r) ->
  attempts r = currentRetry + 1 /\ failedAttempts r = failed.
Proof.
  unfold Client.tryBlock. destruct (browser st) as [b |]; [| done].
  destruct (browser_newPage engine b (world st)) as [w1 [pg | e]]; [| done].
  destruct (pageSteps _ _ _ _ _ _ _ _) as [w2 [[response content] | e]]; [| done].
  intros [= _ _ Hc]. apply classify_Normal in Hc. tauto.
Qed.

(** The run of the closure from attempt [currentRetry], given fuel
    for the retries that remain: it returns; its attempts are some
    failures and a last one; it leaves [this.browser] alone; the
    records pushed are those of the failures, in order; a success
    returns the Response of the last attempt; a last failure comes
    when no retry remains and returns the failure Response. *)
Lemma attemptRequest_run fuel : forall currentRetry failed (st : ClientState W B),
  (Z.to_nat (maxRetries - currentRetry) <= fuel)%nat ->
  exists st' completion errors final recs,
    attemptRequest fuel currentRetry failed st = Some (st', completion)
    /\ attemptLog fuel currentRetry failed st = map Throw errors ++ [final]
    /\ browser st' = browser st
    /\ map error recs = map errorMessageOf errors
    /\ match final with
       | Normal r =>
           completion = Normal r
           /\ attempts r = currentRetry + Z.of_nat (length errors) + 1
           /\ failedAttempts r = failed ++ recs
           /\ currentRetry + Z.of_nat (length errors) <= Z.max currentRetry maxRetries
       | Throw e =>
           exists rec,
             error rec = errorMessageOf e
             /\ completion
                = failureResponse (currentRetry + Z.of_nat (length errors))
                    (failed ++ recs ++ [rec]) e
             /\ currentRetry + Z.of_nat (length errors) = Z.max currentRetry maxRetries
       end.
Proof.
  induction fuel as [| fuel IH]; intros currentRetry failed st Hfuel;
    rewrite attemptRequest_unfold, attemptLog_unfold;
    destruct (tryBlock currentRetry failed st) as [[w page] [r | e]] eqn:Htry.
  - apply tryBlock_Normal in Htry as [Ha Hf].
    exists {| world := w; browser := browser st |}, (Normal r), [], (Normal r), [].
    simpl. rewrite app_nil_r. repeat split; try done; lia.
  - destruct (currentRetry <? maxRetries) eqn:Hlt; [apply Z.ltb_lt in Hlt; lia |].
    apply Z.ltb_ge in Hlt.
    eexists _, _, [], (Throw e), []. simpl.
    repeat split; try done.
    exists (failedAttemptOf engine e w). repeat split; try done.
    + by rewrite Z.add_0_r.
    + lia.
  - apply tryBlock_Normal in Htry as [Ha Hf].
    exists {| world := w; browser := browser st |}, (Normal r), [], (Normal r), [].
    simpl. rewrite app_nil_r. repeat split; try done; lia.
  - destruct (currentRetry <? maxRetries) eqn:Hlt.
    + apply Z.ltb_lt in Hlt.
      destruct (IH (currentRetry + 1) (failed ++ [failedAttemptOf engine e w])
                  {| world := awaitRetryDelay engine retryDelay (closeQuietly engine page w);
                     browser := browser st |})
        as (st' & completion & errors & final & recs & Hrun & Hlog & Hb & Hrecs & Hfinal);
        [lia |].
      exists st', completion, (e :: errors), final, (failedAttemptOf engine e w :: recs).
      rewrite Hrun, Hlog. simpl in Hb. simpl.
      repeat split; try done.
      * by rewrite Hrecs.
      * destruct final as [r | e'].
        -- destruct Hfinal as (-> & Ha & Hf & Hle). repeat split; try done.
           ++ rewrite Ha. lia.
           ++ rewrite Hf. by rewrite <- app_assoc.
           ++ lia.
        -- destruct Hfinal as (rec & Hrec & -> & Hn). exists rec.
           repeat split; try done.
           ++ f_equal; [lia |]. by rewrite <- !app_assoc.
           ++ lia.
    + apply Z.ltb_ge in Hlt.
      eexists _, _, [], (Throw e), []. simpl.
      repeat split; try done.
      exists (failedAttemptOf engine e w). repeat split; try done.
      * by rewrite Z.add_0_r.
      * lia.
Qed.

End AttemptRequest.


Section Fetch.

Context {W B P Passthrough : Type}.
Variable engine : Engine W B P Passthrough.
Variable base : BaseClient.
Variable options : PuppeteerRealBrowserClientOptions Passthrough.

Abbreviation fetch := (fetch engine base options).
Abbreviation fetchLog := (fetchLog engine base options).
Abbreviation ensureBrowser := (ensureBrowser engine base options).

Implicit Types (request : Request.PuppeterRequestOptions (ActionFunction W P)).
Implicit Types (st : ClientState W B).

(** [fetch], once the browser is there, is the closure run from
    [retries] with an empty array and fuel for every retry. *)
Lemma fetch_run request st st1 :
  ensureBrowser st = (st1, Normal tt) ->
  exists st' completion errors final recs,
    fetch request st = Some (st', completion)
    /\ fetchLog request st = map Throw errors ++ [final]
    /\ browser st' = browser st1
    /\ map error recs = map errorMessageOf errors
    /\ let maxRetries := default 0 (Request.maxRetries request) in
       let retries := default 0 (Request.retries request) in
       match final with
       | Normal r =>
           completion = Normal r
           /\ attempts r = retries + Z.of_nat (length errors) + 1
           /\ failedAttempts r = recs
           /\ retries + Z.of_nat (length errors) <= Z.max retries maxRetries
       | Throw e =>
           exists rec,
             error rec = errorMessageOf e
             /\ completion
                = failureResponse (retries + Z.of_nat (length errors)) (recs ++ [rec]) e
             /\ retries + Z.of_nat (length errors) = Z.max retries maxRetries
       end.
Proof.
  intros Hensure. unfold Client.fetch, Client.fetchLog. rewrite Hensure.
  apply (attemptRequest_run engine base). lia.
Qed.

Lemma fetch_startup_failure request st st1 e :
  ensureBrowser st = (st1, Throw e) ->
  fetch request st = Some (st1, Throw e).
Proof. intros Hensure. unfold Client.fetch. by rewrite Hensure. Qed.

Lemma ensureBrowser_unit st st1 (u : unit) :
  ensureBrowser st = (st1, Normal u) -> ensureBrowser st = (st1, Normal tt).
Proof. by destruct u. Qed.

Lemma last_snoc {A : Type} (l : list A) (x : A) : last (l ++ [x]) = Some x.
Proof. induction l as [| y [| z l] IH]; try done. Qed.

Lemma failureResponse_Normal currentRetry failed e :
  (forall isNull, e <> Nullish isNull) ->
  failureResponse currentRetry failed e
  = Normal {| body := errorMessageOf e;
              headers := ∅;
              status := orNumber (thrownStatus e) 500;
              statusText := "Request Failed";
              attempts := currentRetry + 1;
              failedAttempts := failed |}.
Proof. intros Hnull. destruct e as [m s | s | n]; try done. by destruct (Hnull n). Qed.

(** C1, as amended.  Once the browser is there (a handle is stored, or
    the engine starts), [fetch] returns a Response whatever the attempts
    do, as long as the value the last attempt throws is not [null] or
    [undefined]: a failure in page creation, configuration, an action,
    navigation, the reading of the content, the close or the status check
    is caught by the closure.  A failure of the engine start is not
    caught: [fetch] rejects with it. *)
Theorem fetch_returns_response request st :
  ((exists st1, ensureBrowser st = (st1, Normal tt)) ->
   (forall isNull, last (fetchLog request st) <> Some (Throw (Nullish isNull))) ->
   exists st' r, fetch request st = Some (st', Normal r))
  /\ (forall st1 e, ensureBrowser st = (st1, Throw e) ->
      fetch request st = Some (st1, Throw e)).
Proof.
  split; [| intros st1 e; apply fetch_startup_failure].
  intros [st1 Hensure] Hlast.
  destruct (fetch_run request st st1 Hensure)
    as (st' & completion & errors & final & recs & Hrun & Hlog & _ & _ & Hfinal).
  rewrite Hlog, last_snoc in Hlast. exists st'.
  destruct final as [r | e].
  - destruct Hfinal as (-> & _). by exists r.
  - destruct Hfinal as (rec & _ & -> & _).
    rewrite failureResponse_Normal in Hrun by (intros n ->; by apply (Hlast n)).
    eauto.
Qed.


(** C4.  With base retry count 0, a [fetch] call that ends on the success
    path returns the Response of its successful attempt, with [attempts]
    at least 1 and equal to 1 plus the number of attempts that failed
    before it, and those failures listed in [failedAttempts], one record
    each, in order.  In particular, with [maxRetries = 2], two attempts
    that throw and a third with status 200 give [status = 200],
    [attempts = 3] and two records. *)
Theorem success_after_failures request st st1 :
  default 0 (Request.retries request) = 0 ->
  ensureBrowser st = (st1, Normal tt) ->
  (forall errors r0,
      fetchLog request st = map Throw errors ++ [Normal r0] ->
      exists st',
        fetch request st = Some (st', Normal r0)
        /\ 1 <= attempts r0
        /\ attempts r0 = 1 + Z.of_nat (length errors)
        /\ map error (failedAttempts r0) = map errorMessageOf errors)
  /\ (forall e1 e2 r3,
      Request.maxRetries request = Some 2 ->
      fetchLog request st = [Throw e1; Throw e2; Normal r3] ->
      status r3 = 200 ->
      exists st' r,
        fetch request st = Some (st', Normal r)
        /\ status r = 200
        /\ attempts r = 3
        /\ length (failedAttempts r) = 2%nat).
Proof.
  intros Hretries Hensure.
  assert (forall errors r0,
      fetchLog request st = map Throw errors ++ [Normal r0] ->
      exists st',
        fetch request st = Some (st', Normal r0)
        /\ 1 <= attempts r0
        /\ attempts r0 = 1 + Z.of_nat (length errors)
        /\ map error (failedAttempts r0) = map errorMessageOf errors) as Hgeneral.
  { intros errors0 r0 Hlog0.
    destruct (fetch_run request st st1 Hensure)
      as (st' & completion & errors & final & recs & Hrun & Hlog & _ & Hrecs & Hfinal).
    rewrite Hlog in Hlog0. apply app_inj_tail in Hlog0 as [Herrors ->].
    assert (errors = errors0) as ->.
    { revert Herrors. clear. revert errors0.
      induction errors as [| e errors IH]; intros [| e0 errors0]; simpl; try done.
      intros [= -> Hrest]. f_equal. by apply IH. }
    rewrite Hretries in Hfinal. cbn zeta in Hfinal.
    destruct Hfinal as (-> & Ha & Hf & _).
    exists st'. rewrite Hf, Ha. repeat split; try done; lia. }
  split; [exact Hgeneral |].
  intros e1 e2 r3 _ Hlog Hstatus.
  destruct (Hgeneral [e1; e2] r3 Hlog) as (st' & Hrun & _ & Ha & Hf).
  exists st', r3. repeat split; try done.
  rewrite <- (length_map error), Hf. done.
Qed.

(** C5.  An attempt whose navigation gives no response object, or one
    whose status is undefined, is a failure whatever the success predicate
    of the client is: once the page steps are through, the [try] block
    throws the invalid-status error for 500.  With [maxRetries = 0] (and
    base retry count 0) the call then returns a Response with status 500
    and exactly one failed-attempt record. *)
Theorem undefined_status_is_failure request st st1 b w page w' response content :
  response ≫= responseStatus = None ->
  ensureBrowser st = (st1, Normal tt) ->
  browser st1 = Some b ->
  browser_newPage engine b (world st1) = (w, Normal page) ->
  pageSteps engine base (Request.url request) (Request.javaScriptEnabled request) page
    (before (extractActions (Request.actions request)))
    (after (extractActions (Request.actions request))) w
  = (w', Normal (response, content)) ->
  (forall currentRetry failed,
      tryBlock engine base (Request.url request) (Request.javaScriptEnabled request)
        (Request.actions request) currentRetry failed st1
      = (w', Some page, Throw (InvalidStatusCodeError base 500)))
  /\ (default 0 (Request.maxRetries request) = 0 ->
      default 0 (Request.retries request) = 0 ->
      exists st' r rec,
        fetch request st = Some (st', Normal r)
        /\ failedAttempts r = [rec]
        /\ error rec = invalidStatusMessage base 500
        /\ status r = 500
        /\ statusText r = "Request Failed"
        /\ attempts r = 1).
Proof.
  intros Hstatus Hensure Hb Hpage Hsteps.
  assert (forall currentRetry failed,
      tryBlock engine base (Request.url request) (Request.javaScriptEnabled request)
        (Request.actions request) currentRetry failed st1
      = (w', Some page, Throw (InvalidStatusCodeError base 500))) as Htry.
  { intros currentRetry failed. unfold tryBlock.
    rewrite Hb, Hpage, Hsteps. unfold classify. by rewrite Hstatus. }
  split; [exact Htry |].
  intros Hmax Hretries. unfold Client.fetch.
  rewrite Hensure, Hmax, Hretries, attemptRequest_unfold, Htry. simpl.
  eexists _, _, _. split; [reflexivity |]. by simpl.
Qed.

End Fetch.

Section PageRelease.

Context {W B P Passthrough : Type}.
Variable engine : Engine W B P Passthrough.
Variable base : BaseClient.
Variable url : string.
Variable javaScriptEnabled : option bool.
Variable maxRetries : Z.
Variable actions : option (list (PuppeteerRealBrowserClientAction (ActionFunction W P))).
Variable retryDelay : option Z.

Abbreviation tryBlock' := (tryBlock engine base url javaScriptEnabled actions).
Abbreviation attemptRequest' :=
  (attemptRequest engine base url javaScriptEnabled maxRetries actions retryDelay).

(** C2, as amended.  The close of step 6 is inside the [try] block: an
    attempt leaves that block normally only after [page.close()] has
    completed normally; a failure thrown by that close is a failure of the
    attempt like any other.  After any failure of an attempt that had
    opened a page, the handler pushes the failed-attempt record, calls
    [page.close()] (again, if the block had closed it) and ignores how
    that call completes, and only then retries, when
    [currentRetry < maxRetries], or returns the failure Response. *)
Theorem page_close_in_attempt fuel currentRetry failed (st : ClientState W B) :
  (forall w' pg r,
      tryBlock' currentRetry failed st = (w', pg, Normal r) ->
      exists page w0, pg = Some page /\ page_close engine page w0 = (w', Normal tt))
  /\ (forall b w page w1 loaded w2 e,
      browser st = Some b ->
      browser_newPage engine b (world st) = (w, Normal page) ->
      loadPage engine base url javaScriptEnabled page
        (before (extractActions actions)) (after (extractActions actions)) w
      = (w1, Normal loaded) ->
      page_close engine page w1 = (w2, Throw e) ->
      tryBlock' currentRetry failed st = (w2, Some page, Throw e))
  /\ (forall w page e,
      tryBlock' currentRetry failed st = (w, Some page, Throw e) ->
      attemptRequest' fuel currentRetry failed st
      = let failed' :=
          failed ++ [{| error := errorMessageOf e; timestamp := date_now engine w |}] in
        let closed := fst (page_close engine page w) in
        if currentRetry <? maxRetries
        then
          match fuel with
          | O => None
          | S fuel' =>
              attemptRequest' fuel' (currentRetry + 1) failed'
                {| world := awaitRetryDelay engine retryDelay closed; browser := browser st |}
          end
        else
          Some ({| world := closed; browser := browser st |},
                failureResponse currentRetry failed' e)).
Proof.
  repeat split.
  - intros w' pg r. unfold tryBlock. destruct (browser st) as [b |]; [| done].
    destruct (browser_newPage engine b (world st)) as [w1 [page | e]]; [| done].
    unfold pageSteps, bind.
    destruct (loadPage _ _ _ _ _ _ _ _) as [w2 [loaded | e]]; [| done].
    destruct (page_close engine page w2) as [w3 [[] | e]] eqn:Hclose; [| done].
    unfold ret. destruct loaded as [response content]. intros [= <- <- _].
    by exists page, w2.
  - intros b w page w1 loaded w2 e Hb Hpage Hload Hclose. unfold tryBlock.
    rewrite Hb, Hpage. unfold pageSteps, bind. by rewrite Hload, Hclose.
  - intros w page e Htry. rewrite (attemptRequest_unfold engine base), Htry.
    reflexivity.
Qed.

End PageRelease.

(** *** The scripted engine at work *)

(** Two navigations that throw, then a page that answers 200. *)
Definition twoFailuresThenOk : Scripted.World :=
  Scripted.worldWith
    [Normal (Scripted.pageFailingNavigation "net::ERR_CONNECTION_RESET");
     Normal (Scripted.pageFailingNavigation "net::ERR_CONNECTION_RESET");
     Normal (Scripted.pageAnswering 200)].

(** Three pages that answer 503. *)
Definition alwaysUnavailable : Scripted.World :=
  Scripted.worldWith
    [Normal (Scripted.pageAnswering 503);
     Normal (Scripted.pageAnswering 503);
     Normal (Scripted.pageAnswering 503)].

(** C1 fails as stated: on a client without a browser whose engine cannot
    be started, [fetch] rejects with the error of [connect]. *)
Lemma fetch_rejects_when_engine_fails_to_start :
  snd <$> fetch Scripted.engine Scripted.base Scripted.options
            (Scripted.request None None) (Scripted.fresh Scripted.worldWithoutEngine)
  = Some (Throw (ErrorObject "Failed to launch the browser process" None)).
Proof. reflexivity. Qed.

(** An after-action that rejects without a reason, on the only attempt:
    the handler reads [error.status] of [undefined], and [fetch] rejects
    with the TypeError. *)
Lemma fetch_rejects_on_rejection_without_reason :
  snd <$> fetch Scripted.engine Scripted.base Scripted.options
            (Scripted.request (Some 0) (Some [Actions.ActionFunction Scripted.rejectingAction]))
            (Scripted.fresh (Scripted.worldWith [Normal (Scripted.pageAnswering 200)]))
  = Some (Throw (TypeErrorUndefined "status")).
Proof. reflexivity. Qed.

Lemma fetch_returns_response_witness :
  exists st' r,
    fetch Scripted.engine Scripted.base Scripted.options
      (Scripted.request (Some 2) None) (Scripted.fresh twoFailuresThenOk)
    = Some (st', Normal r).
Proof.
  apply (proj1 (fetch_returns_response Scripted.engine Scripted.base Scripted.options
                  (Scripted.request (Some 2) None) (Scripted.fresh twoFailuresThenOk))).
  - eexists. reflexivity.
  - intros isNull. vm_compute. discriminate.
Defined.



Lemma success_after_failures_witness :
  exists st' r,
    fetch Scripted.engine Scripted.base Scripted.options
      (Scripted.request (Some 2) None) (Scripted.fresh twoFailuresThenOk)
    = Some (st', Normal r)
    /\ status r = 200
    /\ attempts r = 3
    /\ length (failedAttempts r) = 2%nat.
Proof.
  eapply (proj2 (success_after_failures Scripted.engine Scripted.base Scripted.options
                   (Scripted.request (Some 2) None) (Scripted.fresh twoFailuresThenOk)
                   _ eq_refl eq_refl)).
  - reflexivity.
  - vm_compute. reflexivity.
  - reflexivity.
Defined.

Lemma undefined_status_is_failure_witness :
  exists st' r rec,
    fetch Scripted.engine Scripted.base Scripted.options
      (Scripted.request (Some 0) None)
      (Scripted.fresh (Scripted.worldWith [Normal Scripted.pageWithoutResponse]))
    = Some (st', Normal r)
    /\ failedAttempts r = [rec]
    /\ error rec = "Invalid status code"
    /\ status r = 500
    /\ statusText r = "Request Failed"
    /\ attempts r = 1.
Proof.
  eapply (proj2 (undefined_status_is_failure Scripted.engine Scripted.base Scripted.options
                   (Scripted.request (Some 0) None)
                   (Scripted.fresh (Scripted.worldWith [Normal Scripted.pageWithoutResponse]))
                   _ 1%nat _ Scripted.pageWithoutResponse _ None "<html></html>"
                   eq_refl eq_refl eq_refl eq_refl eq_refl)); reflexivity.
Defined.

(** C2 fails as stated: a page answers 200 and its content is read, but
    its [close()] throws.  With no retry the call returns the failure
    Response with one failed-attempt record; with one retry the close
    failure is retried, and the second page gives the Response, the
    failure on record.  The same page with a [close()] that completes
    gives status 200 at the first attempt and no record. *)
Lemma close_failure_fails_the_attempt :
  snd <$> fetch Scripted.engine Scripted.base Scripted.options
            (Scripted.request (Some 0) None)
            (Scripted.fresh (Scripted.worldWith [Normal Scripted.pageFailingClose]))
  = Some (Normal {| body := "Protocol error: Target.closeTarget";
                    headers := ∅;
                    status := 500;
                    statusText := "Request Failed";
                    attempts := 1;
                    failedAttempts :=
                      [{| error := "Protocol error: Target.closeTarget";
                          timestamp := 1002 |}] |})
  /\ snd <$> fetch Scripted.engine Scripted.base Scripted.options
               (Scripted.request (Some 1) None)
               (Scripted.fresh (Scripted.worldWith [Normal Scripted.pageFailingClose;
                                                    Normal (Scripted.pageAnswering 200)]))
     = Some (Normal {| body := "<html></html>";
                       headers := ∅;
                       status := 200;
                       statusText := "Ok";
                       attempts := 2;
                       failedAttempts :=
                         [{| error := "Protocol error: Target.closeTarget";
                             timestamp := 1002 |}] |})
  /\ snd <$> fetch Scripted.engine Scripted.base Scripted.options
               (Scripted.request (Some 0) None)
               (Scripted.fresh (Scripted.worldWith [Normal (Scripted.pageAnswering 200)]))
     = Some (Normal {| body := "<html></html>";
                       headers := ∅;
                       status := 200;
                       statusText := "Ok";
                       attempts := 1;
                       failedAttempts := [] |}).
Proof. repeat split; reflexivity. Qed.

Lemma page_close_in_attempt_witness :
  tryBlock Scripted.engine Scripted.base "https://example.com" None None 0 []
    {| world := Scripted.worldWith [Normal Scripted.pageFailingClose]; browser := Some 1%nat |}
  = (Scripted.tick (Scripted.tick (Scripted.worldWith [])), Some Scripted.pageFailingClose,
     Throw (ErrorObject "Protocol error: Target.closeTarget" None)).
Proof.
  eapply (proj1 (proj2 (page_close_in_attempt Scripted.engine Scripted.base
                          "https://example.com" None 0 None None 0%nat 0 []
                          {| world := Scripted.worldWith [Normal Scripted.pageFailingClose];
                             browser := Some 1%nat |}))); reflexivity.
Defined.

End RetryFacts.

(** ** The browser lifecycle *)

Module LifecycleFacts.
Import Actions Client.

Section Lifecycle.

Context {W B P Passthrough : Type}.
Variable engine : Engine W B P Passthrough.
Variable base : BaseClient.
Variable options : PuppeteerRealBrowserClientOptions Passthrough.

Implicit Types (st : ClientState W B).

Lemma ensureBrowser_stored st b :
  browser st = Some b -> ensureBrowser engine base options st = (st, Normal tt).
Proof. intros Hb. unfold ensureBrowser. by rewrite Hb. Qed.

Lemma ensureBrowser_starts st w b :
  browser st = None ->
  connect engine {| args := Some (puppeteerArguments base options);
                    passthrough := passthrough options |} (world st) = (w, Normal b) ->
  ensureBrowser engine base options st = ({| world := w; browser := Some b |}, Normal tt).
Proof. intros Hb Hc. unfold ensureBrowser, initBrowser. by rewrite Hb, Hc. Qed.

Lemma ensureBrowser_start_fails st w e :
  browser st = None ->
  connect engine {| args := Some (puppeteerArguments base options);
                    passthrough := passthrough options |} (world st) = (w, Throw e) ->
  ensureBrowser engine base options st = ({| world := w; browser := None |}, Throw e).
Proof. intros Hb Hc. unfold ensureBrowser, initBrowser. by rewrite Hb, Hc. Qed.

(** A call of [ensureBrowser] that runs alone is its two steps taken one
    after the other. *)
Lemma ensureBrowser_as_steps st :
  let '(st1, at1) := ensureBrowserStep engine base options BeforeCheck st in
  let '(st2, at2) := ensureBrowserStep engine base options at1 st1 in
  at2 = Completed (snd (ensureBrowser engine base options st))
  /\ st2 = fst (ensureBrowser engine base options st).
Proof.
  unfold ensureBrowser, initBrowser, ensureBrowserStep.
  destruct (browser st) as [b |] eqn:Hb; [done |].
  destruct (connect engine _ (world st)) as [w [b | e]]; simpl; by rewrite ?Hb.
Qed.

(** [fetch] leaves the field [this.browser] as [ensureBrowser] left it. *)
Lemma fetch_keeps_browser request st st' c b :
  browser st = Some b ->
  fetch engine base options request st = Some (st', c) ->
  browser st' = Some b.
Proof.
  intros Hb Hfetch.
  destruct (RetryFacts.fetch_run engine base options request st st
              (ensureBrowser_stored st b Hb))
    as (st2 & c2 & _ & _ & _ & Hrun & _ & Hbrowser & _).
  rewrite Hrun in Hfetch. injection Hfetch as <- <-. by rewrite Hbrowser.
Qed.

(** C8.  [close()] on a client without a browser does nothing.  On any
    client whose browser, if it has one, closes without error, [close()]
    completes without error and leaves the handle absent, and a second
    [close()] right after it completes without error too and changes
    nothing: the handle is absent after each of the two calls. *)
Theorem close_twice st :
  (browser st = None -> close engine st = (st, Normal tt))
  /\ ((forall b, browser st = Some b ->
                 snd (browser_close engine b (world st)) = Normal tt) ->
      exists st1,
        close engine st = (st1, Normal tt)
        /\ browser st1 = None
        /\ close engine st1 = (st1, Normal tt)).
Proof.
  split.
  - intros Hb. unfold close. by rewrite Hb.
  - intros Hclose. unfold close, closeBrowser.
    destruct (browser st) as [b |] eqn:Hb.
    + specialize (Hclose b eq_refl).
      destruct (browser_close engine b (world st)) as [w [[] | e]]; [| done].
      by exists {| world := w; browser := None |}.
    + exists st. by rewrite Hb.
Qed.

End Lifecycle.

Lemma close_twice_witness :
  exists st1,
    close Scripted.engine {| world := Scripted.worldWith []; browser := Some 1%nat |}
    = (st1, Normal tt)
    /\ browser st1 = None
    /\ close Scripted.engine st1 = (st1, Normal tt).
Proof.
  apply (proj2 (close_twice Scripted.engine
                  {| world := Scripted.worldWith []; browser := Some 1%nat |})).
  intros b Hb. reflexivity.
Defined.

(** Two calls of [ensureBrowser] on a client without a browser, the
    second begun while the first awaits [connect].  Both find no handle
    and both start an engine; the handle of the first start is stored, and
    then replaced by the handle of the second, with no close in
    between. *)
Lemma overlapping_calls_start_two_engines :
  let st0 := Scripted.fresh (Scripted.worldWith []) in
  let run schedule :=
    overlapped Scripted.engine Scripted.base Scripted.options schedule st0
      [BeforeCheck; BeforeCheck] in
  browser (fst (run [0; 1; 0]%nat)) = Some 1%nat
  /\ browser (fst (run [0; 1; 0; 1]%nat)) = Some 2%nat
  /\ Scripted.launched (world (fst (run [0; 1; 0; 1]%nat))) = 2%nat
  /\ snd (run [0; 1; 0; 1]%nat) = [Completed (Normal tt); Completed (Normal tt)].
Proof. repeat split; reflexivity. Qed.


Section LedgerFacts.

Context {W B P Passthrough : Type} `{EqDecision B}.
Variable engine : Engine W B P Passthrough.
Variable base : BaseClient.
Variable options : PuppeteerRealBrowserClientOptions Passthrough.

Lemma keeps_ret {A : Type} (a : A) : KeepsLedger (B := B) (ret (W := W * list B) a).
Proof. by intros wl. Qed.

Lemma keeps_withLedger {A : Type} (m : Eff W A) : KeepsLedger (B := B) (withLedger m).
Proof. by intros wl. Qed.

Lemma keeps_bind {A C : Type} (m : Eff (W * list B) A) (k : A -> Eff (W * list B) C) :
  KeepsLedger m -> (forall a, KeepsLedger (k a)) -> KeepsLedger (bind m k).
Proof.
  intros Hm Hk wl. unfold bind. specialize (Hm wl).
  destruct (m wl) as [wl' [a | e]]; simpl in *; [| done].
  by rewrite Hk.
Qed.

Lemma keeps_configurePage page javaScriptEnabled :
  KeepsLedger (configurePage (tracked engine) base page javaScriptEnabled).
Proof.
  unfold configurePage. apply keeps_bind.
  - destruct (truthyString (currentUserAgent base));
      [apply keeps_withLedger | apply keeps_ret].
  - intros _. destruct javaScriptEnabled; [apply keeps_withLedger | apply keeps_ret].
Qed.

Lemma keeps_executeActions page (actions : list (ActionFunction W P)) :
  KeepsLedger (executeActions (W := W * list B) page (map (trackedAction (B := B)) actions)).
Proof.
  induction actions as [| action rest IH]; simpl; [apply keeps_ret |].
  apply keeps_bind; [apply keeps_withLedger | done].
Qed.

Lemma isBefore_mapAction {F G : Type} (f : F -> G) (action : PuppeteerRealBrowserClientAction F) :
  isBefore (mapAction f action) = isBefore action.
Proof. by destruct action. Qed.

Lemma extractActions_mapAction {F G : Type} (f : F -> G)
    (actions : option (list (PuppeteerRealBrowserClientAction F))) :
  before (extractActions (List.map (mapAction f) <$> actions))
  = map f (before (extractActions actions))
  /\ after (extractActions (List.map (mapAction f) <$> actions))
     = map f (after (extractActions actions)).
Proof.
  destruct actions as [l |]; [| done].
  change (List.map (mapAction f) <$> Some l) with (Some (List.map (mapAction f) l)).
  rewrite !ActionsFacts.extractActions_buckets. simpl.
  unfold beforeBucket, afterBucket.
  induction l as [| action rest [IHb IHa]]; [done |]. simpl.
  rewrite isBefore_mapAction.
  destruct (isBefore action); simpl; rewrite ?IHb, ?IHa; split; try done;
    by destruct action.
Qed.

Lemma keeps_pageSteps url javaScriptEnabled page (before after : list (ActionFunction W P)) :
  KeepsLedger (pageSteps (tracked engine) base url javaScriptEnabled page
                 (map (trackedAction (B := B)) before) (map (trackedAction (B := B)) after)).
Proof.
  unfold pageSteps, loadPage.
  repeat (first [ apply keeps_configurePage | apply keeps_executeActions
                | apply keeps_withLedger | apply keeps_ret
                | apply keeps_bind | intros ? ]).
Qed.

Section Closure.

Variable url : string.
Variable javaScriptEnabled : option bool.
Variable maxRetries : Z.
Variable actions : option (list (PuppeteerRealBrowserClientAction (ActionFunction W P))).
Variable retryDelay : option Z.

Abbreviation trackedActions := (List.map (mapAction (trackedAction (B := B))) <$> actions).

Lemma tryBlock_ledger currentRetry failed (st : ClientState (W * list B) B) :
  snd (fst (fst (tryBlock (tracked engine) base url javaScriptEnabled trackedActions
                   currentRetry failed st)))
  = snd (world st).
Proof.
  unfold tryBlock. destruct (browser st) as [b |]; [| done].
  destruct (extractActions_mapAction (trackedAction (B := B)) actions) as [-> ->].
  pose proof (keeps_withLedger (browser_newPage engine b) (world st)) as Hnew.
  change (withLedger (browser_newPage engine b)) with (browser_newPage (tracked engine) b)
    in Hnew.
  destruct (browser_newPage (tracked engine) b (world st)) as [wl [page | e]];
    simpl in Hnew; [| done].
  pose proof (keeps_pageSteps url javaScriptEnabled page
                (before (extractActions actions)) (after (extractActions actions)) wl)
    as Hsteps.
  destruct (pageSteps _ _ _ _ _ _ _ _) as [wl' [[response content] | e]];
    simpl in *; congruence.
Qed.

Lemma closeQuietly_ledger page (wl : W * list B) :
  snd (closeQuietly (tracked engine) page wl) = snd wl.
Proof. by destruct page. Qed.

Lemma awaitRetryDelay_ledger (wl : W * list B) :
  snd (awaitRetryDelay (tracked engine) retryDelay wl) = snd wl.
Proof. unfold awaitRetryDelay. destruct retryDelay as [d |]; [| done]. by destruct (0 <? d). Qed.

Lemma attemptRequest_ledger fuel :
  forall currentRetry failed (st st' : ClientState (W * list B) B) completion,
    attemptRequest (tracked engine) base url javaScriptEnabled maxRetries trackedActions
      retryDelay fuel currentRetry failed st = Some (st', completion) ->
    liveBrowsers st' = liveBrowsers st /\ browser st' = browser st.
Proof.
  unfold liveBrowsers.
  induction fuel as [| fuel IH]; intros currentRetry failed st st' completion;
    rewrite RetryFacts.attemptRequest_unfold;
    pose proof (tryBlock_ledger currentRetry failed st) as Htry;
    destruct (tryBlock _ _ _ _ _ _ _ _) as [[wl page] [r | e]]; simpl in Htry.
  - by intros [= <- _].
  - destruct (currentRetry <? maxRetries); [done |].
    intros [= <- _]. simpl. by rewrite closeQuietly_ledger.
  - by intros [= <- _].
  - destruct (currentRetry <? maxRetries).
    + intros Hrun. apply IH in Hrun as [Hl Hb]. simpl in *.
      by rewrite Hl, awaitRetryDelay_ledger, closeQuietly_ledger.
    + intros [= <- _]. simpl. by rewrite closeQuietly_ledger.
Qed.

End Closure.

Implicit Types (st : ClientState (W * list B) B).

Lemma ensureBrowser_ledger st :
  ledgerMatches st ->
  ledgerMatches (fst (ensureBrowser (tracked engine) base options st)).
Proof.
  unfold ledgerMatches, liveBrowsers, ensureBrowser, initBrowser.
  destruct (browser st) as [b |] eqn:Hb; simpl; [by rewrite Hb |].
  intros Hl.
  destruct (connect engine _ (world st).1) as [w [b | e]]; simpl; by rewrite ?Hl.
Qed.

Lemma close_ledger st :
  ledgerMatches st -> ledgerMatches (fst (close (tracked engine) st)).
Proof.
  unfold ledgerMatches, liveBrowsers, close, closeBrowser.
  destruct (browser st) as [b |] eqn:Hb; simpl; [| by rewrite Hb].
  intros Hl.
  destruct (browser_close engine b (world st).1) as [w [[] | e]]; simpl; [| done].
  rewrite Hl. simpl. by destruct (decide_rel eq b b).
Qed.

Lemma fetch_ledger (request : Request.PuppeterRequestOptions (ActionFunction W P)) st :
  ledgerMatches st ->
  exists st' completion,
    fetch (tracked engine) base options (Request.mapActions trackedAction request) st
    = Some (st', completion)
    /\ ledgerMatches st'.
Proof.
  intros Hl. apply ensureBrowser_ledger in Hl.
  destruct (ensureBrowser (tracked engine) base options st) as [st1 [[] | e]] eqn:Hensure.
  - destruct (RetryFacts.fetch_run (tracked engine) base options
                (Request.mapActions trackedAction request) st st1 Hensure)
      as (st' & completion & _ & _ & _ & Hrun & _).
    exists st', completion. split; [done |].
    unfold fetch in Hrun. rewrite Hensure in Hrun.
    apply attemptRequest_ledger in Hrun as [Hlive Hb].
    unfold ledgerMatches in *. simpl in Hl. by rewrite Hlive, Hb.
  - exists st1, (Throw e). split; [| done].
    by apply RetryFacts.fetch_startup_failure.
Qed.

Lemma performAll_ledger (calls : list (Call W P)) : forall st,
  ledgerMatches st ->
  exists st',
    performAll (tracked engine) base options (map trackedCall calls) st = Some st'
    /\ ledgerMatches st'.
Proof.
  induction calls as [| call rest IH]; intros st Hl; simpl; [by exists st |].
  destruct call as [request |]; simpl.
  - destruct (fetch_ledger request st Hl) as (st' & completion & -> & Hl'). simpl.
    by apply IH.
  - apply IH. by apply close_ledger.
Qed.

(** Calls made one after the other.  When the calls made on a client do
    not overlap, each awaited before the next, the browsers its engine has
    started and not closed are, after any sequence of [fetch] and [close]
    calls on a new client, the stored handle alone: at most one.
    [ensureBrowser] starts no engine while a handle is stored, and stores
    the handle of the engine it starts when none is; [fetch] leaves a
    stored handle in place; only [close] clears it. *)
Theorem one_live_browser_between_calls (calls : list (Call W P)) (w : W) :
  (exists st',
      performAll (tracked engine) base options (map trackedCall calls)
        {| world := (w, []); browser := None |} = Some st'
      /\ liveBrowsers st' = match browser st' with Some b => [b] | None => [] end
      /\ (length (liveBrowsers st') <= 1)%nat)
  /\ (forall (st : ClientState W B) b,
      browser st = Some b -> ensureBrowser engine base options st = (st, Normal tt))
  /\ (forall (st : ClientState W B) w' b,
      browser st = None ->
      connect engine {| args := Some (puppeteerArguments base options);
                        passthrough := passthrough options |} (world st)
      = (w', Normal b) ->
      ensureBrowser engine base options st
      = ({| world := w'; browser := Some b |}, Normal tt))
  /\ (forall request (st st' : ClientState W B) c b,
      browser st = Some b ->
      fetch engine base options request st = Some (st', c) ->
      browser st' = Some b)
  /\ (forall (st : ClientState W B),
      browser (fst (close engine st)) = None
      \/ browser (fst (close engine st)) = browser st).
Proof.
  repeat split.
  - destruct (performAll_ledger calls {| world := (w, []); browser := None |})
      as (st' & Hrun & Hl); [done |].
    exists st'. unfold ledgerMatches in Hl. repeat split; try done.
    rewrite Hl. destruct (browser st'); simpl; lia.
  - intros st b. apply ensureBrowser_stored.
  - intros st w' b. apply ensureBrowser_starts.
  - intros request st st' c b. apply fetch_keeps_browser.
  - intros st. unfold close, closeBrowser.
    destruct (browser st) as [b |] eqn:Hb; [| by right].
    destruct (browser_close engine b (world st)) as [w' [[] | e]]; simpl; [by left |].
    by right.
Qed.

End LedgerFacts.

Lemma one_live_browser_between_calls_witness :
  ensureBrowser Scripted.engine Scripted.base Scripted.options
    (Scripted.fresh (Scripted.worldWith []))
  = ({| world := {| Scripted.clock := 1000;
                    Scripted.pagesToOpen := [];
                    Scripted.connectOutcome := Normal tt;
                    Scripted.browserCloseOutcome := Normal tt;
                    Scripted.launched := 1 |};
        browser := Some 1%nat |}, Normal tt).
Proof.
  eapply (proj1 (proj2 (proj2 (one_live_browser_between_calls Scripted.engine Scripted.base
                                 Scripted.options [] (Scripted.worldWith []))))).
  - reflexivity.
  - reflexivity.
Defined.

End LifecycleFacts.

(** ** The fan-out *)

Module FanOutFacts.
Import FanOut.

Section FetchMany.

Context {Request Response : Type}.
Variable requests : list Request.
Variable concurrency : option Z.
Variable fetchOutcome : nat -> Request -> Completion Response.
Variable shouldThrottle : list nat -> option Z -> bool.
Variable handleConcurrency : list (nat * PromiseState) -> option (list nat * Completion unit).

Implicit Types (st : State (Request := Request) (Response := Response)).

Abbreviation Inv := (Invariant (Response := Response) requests fetchOutcome).
Abbreviation mainStep' :=
  (mainStep (Response := Response) requests concurrency shouldThrottle handleConcurrency).
Abbreviation step' :=
  (step requests concurrency fetchOutcome shouldThrottle handleConcurrency).
Abbreviation run' :=
  (run requests concurrency fetchOutcome shouldThrottle handleConcurrency).

Lemma Invariant_initial : Inv initial.
Proof. split; simpl; try done. Qed.

Lemma promiseAll_fulfilled (ts : list (Task (Request := Request))) ids u :
  promiseAll ts ids = Some (Normal u) ->
  forall id, id ∈ ids -> promiseOf ts id = Fulfilled.
Proof.
  induction ids as [| id0 rest IH]; simpl; intros Hall id Hin.
  - by apply elem_of_nil in Hin.
  - destruct (promiseOf ts id0) eqn:Hp0.
    + by destruct (promiseAll ts rest) as [[] |].
    + apply elem_of_cons in Hin as [-> | Hin]; [done | by apply IH].
    + done.
Qed.

Lemma Invariant_settle id st st' :
  Inv st -> settleTask fetchOutcome id st = Some st' -> Inv st'.
Proof.
  intros HI. unfold settleTask.
  destruct (tasks st !! id) as [t |] eqn:Ht; [| done].
  destruct (promise t) eqn:Hp; try done.
  destruct (inv_tasks _ _ _ HI id t Ht) as [Hidx Hreq].
  pose proof (lookup_lt_Some _ _ _ Ht) as Hlt.
  assert (Hcontrol : forall c,
             control st = c ->
             match c with
             | Resolved _ => False
             | _ => True
             end).
  { intros c Hc. pose proof (inv_control _ _ _ HI) as Hctl. rewrite Hc in Hctl.
    destruct c; try done. destruct Hctl as (_ & _ & Hno). by apply (Hno id t). }
  destruct (fetchOutcome (index t) (request t)) as [response | e] eqn:Hout;
    intros [= <-]; rewrite Hidx in *; split; simpl.
  - intros k x Hx. apply list_lookup_insert_Some in Hx as [(-> & <- & _) | [Hne Hx]];
      [done | by apply (inv_tasks _ _ _ HI)].
  - intros k x Hx Hful.
    apply list_lookup_insert_Some in Hx as [(-> & <- & _) | [Hne Hx]].
    + exists response. simpl. by rewrite lookup_insert_eq.
    + destruct (inv_fulfilled _ _ _ HI k x Hx Hful) as (r & Hr & Hres).
      exists r. by rewrite lookup_insert_ne.
  - intros k x e Hx Hrej.
    apply list_lookup_insert_Some in Hx as [(-> & <- & _) | [Hne Hx]]; [done |].
    by apply (inv_rejected _ _ _ HI k x e).
  - intros i r Hr. apply lookup_insert_Some in Hr as [[<- <-] | [Hne Hr]].
    + eexists. rewrite list_lookup_insert_eq by done. by simpl.
    + destruct (inv_results _ _ _ HI i r Hr) as (x & Hx & Hful & Hout').
      exists x. by rewrite list_lookup_insert_ne.
  - intros k x Hx Hpend.
    apply list_lookup_insert_Some in Hx as [(-> & <- & _) | [Hne Hx]]; [done |].
    by apply (inv_pending _ _ _ HI k x).
  - pose proof (inv_control _ _ _ HI) as Hctl.
    specialize (Hcontrol _ eq_refl).
    destruct (control st); try done; by rewrite length_insert.
  - intros k x Hx. apply list_lookup_insert_Some in Hx as [(-> & <- & _) | [Hne Hx]];
      [done | by apply (inv_tasks _ _ _ HI)].
  - intros k x Hx Hful.
    apply list_lookup_insert_Some in Hx as [(-> & <- & _) | [Hne Hx]]; [done |].
    by apply (inv_fulfilled _ _ _ HI k x).
  - intros k x e' Hx Hrej.
    apply list_lookup_insert_Some in Hx as [(-> & <- & _) | [Hne Hx]].
    + simpl in Hrej. by injection Hrej as <-.
    + by apply (inv_rejected _ _ _ HI k x e').
  - intros i r Hr. destruct (inv_results _ _ _ HI i r Hr) as (x & Hx & Hful & Hout').
    exists x. rewrite list_lookup_insert_ne; [done |].
    intros <-. rewrite Ht in Hx. injection Hx as <-. congruence.
  - intros k x Hx Hpend.
    apply list_lookup_insert_Some in Hx as [(-> & <- & _) | [Hne Hx]]; [done |].
    by apply (inv_pending _ _ _ HI k x).
  - pose proof (inv_control _ _ _ HI) as Hctl.
    specialize (Hcontrol _ eq_refl).
    destruct (control st); try done; by rewrite length_insert.
Qed.

Hypothesis handleConcurrency_contract : DropsOnlySettled handleConcurrency.

Lemma pending_seen st k t :
  tasks st !! k = Some t -> promise t = Pending -> k ∈ executing st ->
  (k, Pending) ∈ map (fun id => (id, promiseOf (tasks st) id)) (executing st).
Proof.
  intros Ht Hp Hin. apply list_elem_of_In, in_map_iff. exists k.
  split; [| by apply list_elem_of_In]. unfold promiseOf. by rewrite Ht, Hp.
Qed.

Lemma Invariant_main st st' :
  Inv st -> mainStep' st = Some st' -> Inv st'.
Proof.
  intros HI. unfold mainStep.
  pose proof (inv_control _ _ _ HI) as Hctl.
  destruct (control st) as [i | i | | returned | e] eqn:Hc; try done.
  - destruct (requests !! i) as [req |] eqn:Hreq; intros [= <-].
    + split; simpl.
      * intros k x Hx. apply lookup_snoc_Some in Hx as [[_ Hx] | [-> <-]];
          [by apply (inv_tasks _ _ _ HI) | by rewrite Hctl].
      * intros k x Hx Hful. apply lookup_snoc_Some in Hx as [[_ Hx] | [-> <-]];
          [by apply (inv_fulfilled _ _ _ HI k x) | done].
      * intros k x e Hx Hrej. apply lookup_snoc_Some in Hx as [[_ Hx] | [-> <-]];
          [by apply (inv_rejected _ _ _ HI k x e) | done].
      * intros k r Hr. destruct (inv_results _ _ _ HI k r Hr) as (x & Hx & Hrest).
        exists x. split; [| done]. apply lookup_app_l_Some. done.
      * intros k x Hx Hpend. apply elem_of_app.
        apply lookup_snoc_Some in Hx as [[_ Hx] | [-> <-]].
        -- left. by apply (inv_pending _ _ _ HI k x).
        -- right. by apply list_elem_of_singleton.
      * destruct (shouldThrottle _ _); rewrite length_app; simpl; lia.
    + split; simpl; try by destruct HI.
      apply lookup_ge_None_1 in Hreq. lia.
  - destruct (handleConcurrency _) as [[executing' [[] | e]] |] eqn:Hhc; try done;
      intros [= <-]; split; simpl; try (by destruct HI).
    + intros k x Hx Hpend.
      apply (handleConcurrency_contract _ _ _ Hhc).
      apply (pending_seen st k x Hx Hpend). by apply (inv_pending _ _ _ HI k x).
    + intros k x Hx Hpend.
      apply (handleConcurrency_contract _ _ _ Hhc).
      apply (pending_seen st k x Hx Hpend). by apply (inv_pending _ _ _ HI k x).
  - destruct (promiseAll (tasks st) (executing st)) as [[[] | e] |] eqn:Hall; try done;
      intros [= <-]; split; simpl; try (by destruct HI).
    repeat split; try done.
    intros k x Hx Hpend.
    pose proof (promiseAll_fulfilled _ _ _ Hall k (inv_pending _ _ _ HI k x Hx Hpend)) as Hf.
    unfold promiseOf in Hf. rewrite Hx in Hf. congruence.
Qed.

Lemma Invariant_run schedule : forall st st',
  Inv st -> run' schedule st = Some st' -> Inv st'.
Proof.
  induction schedule as [| ev rest IH]; simpl; intros st st' HI.
  - by intros [= <-].
  - destruct (step' st ev) as [st1 |] eqn:Hstep; [| done].
    apply IH. destruct ev as [| id]; simpl in Hstep.
    + by apply (Invariant_main st).
    + by apply (Invariant_settle id st).
Qed.

(** C9.  Whatever the order in which the fetches complete, when
    [fetchMany] resolves the entry of the returned array at index [i] is
    the Response that the fetch of [requests[i]] completed with, the array
    holds nothing else, every request has had its fetch dispatched, and no
    dispatched fetch is still pending: each has settled, and each that
    completed with a Response has it at its index. *)
Theorem fetchMany_index_aligned schedule st returned :
  fetchMany requests concurrency fetchOutcome shouldThrottle handleConcurrency schedule
  = Some st ->
  control st = Resolved returned ->
  (forall i r,
      returned !! i = Some r ->
      exists req, requests !! i = Some req /\ fetchOutcome i req = Normal r)
  /\ (forall i req,
      requests !! i = Some req ->
      exists t,
        tasks st !! i = Some t /\ request t = req /\ index t = i
        /\ promise t <> Pending
        /\ forall r, fetchOutcome i req = Normal r -> returned !! i = Some r)
  /\ length (tasks st) = length requests.
Proof.
  intros Hrun Hc.
  pose proof (Invariant_run schedule initial st Invariant_initial Hrun) as HI.
  pose proof (inv_control _ _ _ HI) as Hctl. rewrite Hc in Hctl.
  destruct Hctl as (-> & Hlen & Hsettled).
  assert (length (tasks st) = length requests) as Hlength.
  { apply Nat.le_antisymm; [| done].
    destruct (tasks st) as [| t0 ts] eqn:Hts using rev_ind; [simpl; lia |].
    rewrite length_app. simpl.
    assert ((ts ++ [t0]) !! length ts = Some t0) as Hlast
      by (apply lookup_snoc_Some; by right).
    rewrite <- Hts in Hlast.
    destruct (inv_tasks _ _ _ HI _ _ Hlast) as [_ Hreq].
    apply lookup_lt_Some in Hreq. lia. }
  repeat split; [| | done].
  - intros i r Hr. destruct (inv_results _ _ _ HI i r Hr) as (t & Ht & _ & Hout).
    destruct (inv_tasks _ _ _ HI i t Ht) as [_ Hreq]. by exists (request t).
  - intros i req Hreq.
    assert (is_Some (tasks st !! i)) as [t Ht].
    { apply lookup_lt_is_Some. rewrite Hlength. by apply lookup_lt_Some in Hreq. }
    destruct (inv_tasks _ _ _ HI i t Ht) as [Hidx Hreq'].
    assert (request t = req) as Hsame by congruence.
    exists t. repeat split; try done; [by apply (Hsettled i t) |].
    intros r Hout. destruct (promise t) as [| | e] eqn:Hp.
    + by destruct (Hsettled i t Ht).
    + destruct (inv_fulfilled _ _ _ HI i t Ht Hp) as (r' & Hr' & Hres). congruence.
    + pose proof (inv_rejected _ _ _ HI i t e Ht Hp). congruence.
Qed.

End FetchMany.

Lemma dropSettled_contract : DropsOnlySettled dropSettled.
Proof.
  intros seen executing' c. unfold dropSettled.
  destruct (forallb _ seen); [done |]. intros [= <- _] id Hin.
  apply list_elem_of_In, in_map_iff. exists (id, Pending).
  split; [done |]. apply filter_In. split; [by apply list_elem_of_In | done].
Qed.

(** Three requests, at most two in flight; the fetches complete in the
    order 1, 2, 0. *)
Definition threeRequests : list string := ["a"; "b"; "c"].

Definition answerOf (i : nat) (req : string) : Completion string :=
  Normal ("response to " +:+ req).

Definition outOfOrder : list Event :=
  [Main; Main; Settle 1; Main; Main; Settle 2; Main; Main; Settle 0; Main].

Lemma fetchMany_index_aligned_witness :
  exists st returned,
    fetchMany threeRequests (Some 2) answerOf throttleAtBound dropSettled outOfOrder = Some st
    /\ control st = Resolved returned
    /\ (forall i r,
        returned !! i = Some r ->
        exists req, threeRequests !! i = Some req /\ answerOf i req = Normal r)
    /\ map promise (tasks st) = [Fulfilled; Fulfilled; Fulfilled].
Proof.
  eexists _, _. split; [vm_compute; reflexivity |].
  split; [reflexivity |]. split; [| reflexivity].
  eapply (fetchMany_index_aligned threeRequests (Some 2) answerOf throttleAtBound
            dropSettled dropSettled_contract outOfOrder); [vm_compute |]; reflexivity.
Defined.

End FanOutFacts.

(** ** More on the action classifier *)

Module ActionsMore.
Import Actions.

(** X1.  The two buckets of [extractActions], one after the other, are a
    rearrangement of the callables of the input list: every callable of
    the input is in exactly one bucket, as often as it is in the input;
    none is dropped, doubled or invented. *)
Theorem extractActions_permutation (F : Type)
    (actions : list (PuppeteerRealBrowserClientAction F)) :
  Permutation (map actionFunc actions)
    (before (extractActions (Some actions)) ++ after (extractActions (Some actions))).
Proof.
  rewrite ActionsFacts.extractActions_buckets. simpl.
  unfold beforeBucket, afterBucket.
  induction actions as [| action rest IH]; simpl; [done |].
  destruct (isBefore action); simpl.
  - by apply Permutation_cons.
  - rewrite IH. apply Permutation_middle.
Qed.

(** X2.  A list of bare callables, the form the README shows first, is
    run after the navigation as it is: [before] is empty and [after] is
    the list, in its order. *)
Theorem extractActions_bare_callables (F : Type) (callables : list F) :
  extractActions (Some (map ActionFunction callables))
  = {| before := []; after := callables |}.
Proof.
  rewrite ActionsFacts.extractActions_buckets.
  unfold beforeBucket, afterBucket.
  induction callables as [| f rest IH]; simpl; [done |].
  injection IH as Hb Ha. by rewrite Hb, Ha.
Qed.

End ActionsMore.

(** ** The calls of a page session *)

Module TraceFacts.
Import Actions Client Trace.

Section Recorder.

Context {W B P Passthrough : Type}.
Variable engine : Engine W B P Passthrough.
Variable base : BaseClient.

Lemma Appends_ret {A : Type} (a : A) :
  Appends (W := W) (ret (W := W * list EngineCall) a) [].
Proof. intros wl. exists 0%nat. simpl. by rewrite app_nil_r. Qed.

Lemma Appends_recording {A : Type} (call : EngineCall) (m : Eff W A) :
  Appends (recording call m) [call].
Proof. intros wl. by exists 1%nat. Qed.

Lemma Appends_bind {A C : Type} (m : Eff (W * list EngineCall) A)
    (k : A -> Eff (W * list EngineCall) C) (calls1 calls2 : list EngineCall) :
  Appends m calls1 -> (forall a, Appends (k a) calls2) ->
  Appends (bind m k) (calls1 ++ calls2).
Proof.
  intros Hm Hk wl. unfold bind. destruct (Hm wl) as (n & Hlog & Hall).
  destruct (m wl) as [wl1 [a | e]]; simpl in *.
  - rewrite (Hall a eq_refl) in Hlog.
    destruct (Hk a wl1) as (n2 & Hlog2 & Hall2).
    exists (length calls1 + n2)%nat. rewrite take_app_add. split.
    + by rewrite Hlog2, Hlog, app_assoc.
    + intros c Hc. by rewrite (Hall2 c Hc).
  - exists (n `min` length calls1)%nat. split; [| done].
    rewrite Hlog. f_equal. rewrite take_app_le by lia.
    destruct (Nat.le_gt_cases n (length calls1)).
    + by rewrite Nat.min_l.
    + rewrite Nat.min_r by lia. by rewrite !take_ge by lia.
Qed.

Lemma Appends_configurePage page javaScriptEnabled :
  Appends (configurePage (recorded engine) base page javaScriptEnabled)
    (configureCalls base javaScriptEnabled).
Proof.
  unfold configurePage, configureCalls. apply Appends_bind.
  - destruct (truthyString (currentUserAgent base));
      [apply Appends_recording | apply Appends_ret].
  - intros _. destruct javaScriptEnabled; [apply Appends_recording | apply Appends_ret].
Qed.

Lemma Appends_executeActions page (actions : list (Labelled W P)) :
  Appends (executeActions (W := W * list EngineCall) page (map recordedAction actions))
    (actionCalls actions).
Proof.
  induction actions as [| action rest IH]; simpl; [apply Appends_ret |].
  apply (Appends_bind _ _ [CallAction (fst action)]); [apply Appends_recording | done].
Qed.

Lemma Appends_pageSteps url javaScriptEnabled page
    (actions : option (list (PuppeteerRealBrowserClientAction (Labelled W P)))) :
  Appends (pageSteps (recorded engine) base url javaScriptEnabled page
             (map recordedAction (before (extractActions actions)))
             (map recordedAction (after (extractActions actions))))
    (pageCalls base url javaScriptEnabled actions).
Proof.
  unfold pageSteps, loadPage, pageCalls.
  eapply (eq_ind _ (Appends _)).
  - apply Appends_bind.
    + apply Appends_bind; [apply Appends_configurePage |]. intros _.
      apply Appends_bind; [apply Appends_executeActions |]. intros _.
      apply Appends_bind; [apply Appends_recording |]. intros response.
      apply Appends_bind; [apply Appends_executeActions |]. intros _.
      apply Appends_bind; [apply Appends_recording |]. intros content.
      apply Appends_ret.
    + intros loaded. apply Appends_bind; [apply Appends_recording |]. intros _.
      apply Appends_ret.
  - simpl. rewrite <- !app_assoc. simpl. by rewrite <- !app_assoc.
Qed.

(** X6.  [configurePage] calls [setUserAgent] only when the client has a
    user agent that is not the empty string, and then with that user
    agent; it calls [setJavaScriptEnabled] only when the request gives the
    flag, [false] included, and after the user agent; with neither it
    makes no call.  When a call throws, the calls after it are not
    made: when [setUserAgent] throws, it is the only call and
    [configurePage] throws what it threw. *)
Theorem configurePage_calls page javaScriptEnabled (wl : W * list EngineCall) :
  exists n,
    snd (fst (configurePage (recorded engine) base page javaScriptEnabled wl))
    = snd wl
      ++ take n
           ((if truthyString (currentUserAgent base)
             then [CallSetUserAgent (default "" (currentUserAgent base))]
             else [])
            ++ match javaScriptEnabled with
               | Some enabled => [CallSetJavaScriptEnabled enabled]
               | None => []
               end)
    /\ (snd (configurePage (recorded engine) base page javaScriptEnabled wl) = Normal tt ->
        snd (fst (configurePage (recorded engine) base page javaScriptEnabled wl))
        = snd wl
          ++ (if truthyString (currentUserAgent base)
              then [CallSetUserAgent (default "" (currentUserAgent base))]
              else [])
          ++ match javaScriptEnabled with
             | Some enabled => [CallSetJavaScriptEnabled enabled]
             | None => []
             end)
    /\ (forall e,
        truthyString (currentUserAgent base) = true ->
        snd (page_setUserAgent engine page (default "" (currentUserAgent base)) (fst wl))
        = Throw e ->
        configurePage (recorded engine) base page javaScriptEnabled wl
        = ((fst (page_setUserAgent engine page (default "" (currentUserAgent base)) (fst wl)),
            snd wl ++ [CallSetUserAgent (default "" (currentUserAgent base))]),
           Throw e)).
Proof.
  destruct (Appends_configurePage page javaScriptEnabled wl) as (n & Hlog & Hall).
  exists n. split; [exact Hlog |]. split.
  - intros Hnormal. rewrite Hlog, (Hall tt Hnormal). reflexivity.
  - intros e Hagent Hthrow. unfold configurePage, bind. rewrite Hagent. simpl.
    unfold recording. by rewrite Hthrow.
Qed.

Section Closure.

Variable url : string.
Variable javaScriptEnabled : option bool.
Variable maxRetries : Z.
Variable actions : option (list (PuppeteerRealBrowserClientAction (Labelled W P))).
Variable retryDelay : option Z.

Abbreviation recordedActions := (List.map (mapAction recordedAction) <$> actions).
Abbreviation attemptCalls := (CallNewPage :: pageCalls base url javaScriptEnabled actions).

Lemma tryBlock_appends currentRetry failed (st : ClientState (W * list EngineCall) B) :
  exists n,
    snd (fst (fst (tryBlock (recorded engine) base url javaScriptEnabled recordedActions
                     currentRetry failed st)))
    = callsOf st ++ take n attemptCalls
    /\ (forall r,
        snd (tryBlock (recorded engine) base url javaScriptEnabled recordedActions
               currentRetry failed st) = Normal r ->
        take n attemptCalls = attemptCalls)
    /\ (browser st <> None -> (1 <= n)%nat).
Proof.
  unfold tryBlock, callsOf. destruct (browser st) as [b |].
  - destruct (LifecycleFacts.extractActions_mapAction recordedAction actions) as [-> ->].
    change (browser_newPage (recorded engine) b)
      with (recording (A := P) CallNewPage (browser_newPage engine b)).
    unfold recording.
    destruct (browser_newPage engine b (world st).1) as [w1 [page | e]]; simpl.
    + destruct (Appends_pageSteps url javaScriptEnabled page actions
                  (w1, (world st).2 ++ [CallNewPage])) as (n & Hlog & Hall).
      exists (S n).
      destruct (pageSteps _ _ _ _ _ _ _ _) as [wl2 [[response content] | e]];
        simpl in *; rewrite Hlog, <- app_assoc; simpl.
      * rewrite (Hall _ eq_refl). repeat split; try done; lia.
      * repeat split; try done; lia.
    + exists 1%nat. repeat split; try done.
  - exists 0%nat. simpl. rewrite app_nil_r. repeat split; try done.
Qed.

(** X9.  The calls of one attempt (the [try] block) are made in one
    fixed order and each at most once: [newPage], the calls of
    [configurePage], the before-actions in their order, [goto] on the
    proxy URL followed by the URL (or on the URL alone), the after-actions
    in their order, [content], [close].  When a call throws the attempt
    makes none of the calls after it; an attempt that gives a Response has
    made them all.  So no before-action runs after [goto] and no
    after-action before it. *)
Theorem attempt_calls currentRetry failed (st : ClientState (W * list EngineCall) B) :
  exists n,
    snd (fst (fst (tryBlock (recorded engine) base url javaScriptEnabled
                     (List.map (mapAction recordedAction) <$> actions)
                     currentRetry failed st)))
    = callsOf st
      ++ take n
           ([CallNewPage]
            ++ configureCalls base javaScriptEnabled
            ++ actionCalls (before (extractActions actions))
            ++ [CallGoto (if truthyString (currentProxyUrl base)
                          then default "" (currentProxyUrl base) +:+ url
                          else url)]
            ++ actionCalls (after (extractActions actions))
            ++ [CallContent; CallPageClose])
    /\ (forall r,
        snd (tryBlock (recorded engine) base url javaScriptEnabled
               (List.map (mapAction recordedAction) <$> actions)
               currentRetry failed st) = Normal r ->
        snd (fst (fst (tryBlock (recorded engine) base url javaScriptEnabled
                         (List.map (mapAction recordedAction) <$> actions)
                         currentRetry failed st)))
        = callsOf st
          ++ [CallNewPage]
          ++ configureCalls base javaScriptEnabled
          ++ actionCalls (before (extractActions actions))
          ++ [CallGoto (if truthyString (currentProxyUrl base)
                        then default "" (currentProxyUrl base) +:+ url
                        else url)]
          ++ actionCalls (after (extractActions actions))
          ++ [CallContent; CallPageClose]).
Proof.
  destruct (tryBlock_appends currentRetry failed st) as (n & Hlog & Hall & _).
  exists n. split; [exact Hlog |].
  intros r Hr. rewrite Hlog, (Hall r Hr). reflexivity.
Qed.

Lemma countDelays_app (l1 l2 : list EngineCall) :
  countDelays (l1 ++ l2) = (countDelays l1 + countDelays l2)%nat.
Proof. unfold countDelays. by rewrite List.filter_app, length_app. Qed.

Lemma countDelays_actionCalls (l : list (Labelled W P)) : countDelays (actionCalls l) = 0%nat.
Proof. by induction l. Qed.

Lemma countDelays_attemptCalls : countDelays attemptCalls = 0%nat.
Proof.
  unfold pageCalls, configureCalls.
  change (CallNewPage :: ?l) with ([CallNewPage] ++ l).
  rewrite !countDelays_app, !countDelays_actionCalls.
  destruct (truthyString (currentUserAgent base)); by destruct javaScriptEnabled.
Qed.

Lemma countDelays_take (l : list EngineCall) : forall n,
  countDelays l = 0%nat -> countDelays (take n l) = 0%nat.
Proof.
  unfold countDelays.
  induction l as [| call rest IH]; intros [| n]; simpl; try done.
  destruct (isDelay call); simpl; [done | apply IH].
Qed.

Lemma tryBlock_delays currentRetry failed (st : ClientState (W * list EngineCall) B) :
  countDelays (snd (fst (fst (tryBlock (recorded engine) base url javaScriptEnabled
                                recordedActions currentRetry failed st))))
  = countDelays (callsOf st).
Proof.
  destruct (tryBlock_appends currentRetry failed st) as (n & -> & _).
  rewrite countDelays_app, countDelays_take; [lia | apply countDelays_attemptCalls].
Qed.

Lemma closeQuietly_delays page (wl : W * list EngineCall) :
  countDelays (snd (closeQuietly (recorded engine) page wl)) = countDelays (snd wl).
Proof.
  destruct page as [page |]; [| done]. simpl. rewrite countDelays_app.
  change (countDelays [CallPageClose]) with 0%nat. lia.
Qed.

(** The number of [delay] calls one retry makes: lines 178-180. *)
Lemma awaitRetryDelay_delays (wl : W * list EngineCall) :
  countDelays (snd (awaitRetryDelay (recorded engine) retryDelay wl))
  = (countDelays (snd wl)
     + match retryDelay with
       | Some d => if (0 <? d)%Z then 1 else 0
       | None => 0
       end)%nat.
Proof.
  unfold awaitRetryDelay. destruct retryDelay as [d |]; [| lia].
  destruct (0 <? d); [| lia]. simpl. rewrite countDelays_app.
  change (countDelays [CallDelay d]) with 1%nat. lia.
Qed.

Lemma attemptLog_nonempty fuel currentRetry failed (st : ClientState (W * list EngineCall) B) :
  (1 <= length (attemptLog (recorded engine) base url javaScriptEnabled maxRetries
                  recordedActions retryDelay fuel currentRetry failed st))%nat.
Proof.
  rewrite RetryFacts.attemptLog_unfold.
  destruct (tryBlock _ _ _ _ _ _ _ _) as [[wl page] [r | e]]; simpl; lia.
Qed.

Lemma attemptRequest_delays fuel :
  forall currentRetry failed (st st' : ClientState (W * list EngineCall) B) completion,
    attemptRequest (recorded engine) base url javaScriptEnabled maxRetries recordedActions
      retryDelay fuel currentRetry failed st = Some (st', completion) ->
    countDelays (callsOf st')
    = (countDelays (callsOf st)
       + match retryDelay with
         | Some d => if (0 <? d)%Z then 1 else 0
         | None => 0
         end
         * (length (attemptLog (recorded engine) base url javaScriptEnabled maxRetries
                      recordedActions retryDelay fuel currentRetry failed st) - 1))%nat.
Proof.
  induction fuel as [| fuel IH]; intros currentRetry failed st st' completion;
    rewrite RetryFacts.attemptRequest_unfold, RetryFacts.attemptLog_unfold;
    pose proof (tryBlock_delays currentRetry failed st) as Htry;
    destruct (tryBlock _ _ _ _ _ _ _ _) as [[wl page] [r | e]]; simpl in Htry.
  - intros [= <- _]. unfold callsOf at 1. simpl. lia.
  - destruct (currentRetry <? maxRetries); [done |].
    intros [= <- _]. unfold callsOf at 1. simpl. rewrite closeQuietly_delays. lia.
  - intros [= <- _]. unfold callsOf at 1. simpl. lia.
  - destruct (currentRetry <? maxRetries).
    + intros Hrun. rewrite (IH _ _ _ _ _ Hrun).
      unfold callsOf at 1. cbn [world length].
      rewrite awaitRetryDelay_delays, closeQuietly_delays, Htry.
      match goal with
      | |- context [length (attemptLog ?e ?b ?u ?j ?m ?a ?d ?f ?c ?fl ?s)] =>
          pose proof (attemptLog_nonempty f c fl s) as Hlen
      end.
      nia.
    + intros [= <- _]. unfold callsOf at 1. simpl. rewrite closeQuietly_delays. lia.
Qed.

End Closure.

Variable options : PuppeteerRealBrowserClientOptions Passthrough.

Lemma ensureBrowser_recorded (st : ClientState (W * list EngineCall) B) :
  callsOf (fst (ensureBrowser (recorded engine) base options st))
  = callsOf st
    ++ match browser st with
       | None => [CallConnect (Some (puppeteerArguments base options))]
       | Some _ => []
       end.
Proof.
  unfold ensureBrowser, initBrowser, callsOf.
  destruct (browser st) as [b |]; simpl; [by rewrite app_nil_r |].
  by destruct (connect engine _ (world st).1) as [w [b | e]].
Qed.

(** X3.  [ensureBrowser] on a client without a handle makes one call of
    [connect] and no other call; its [args] are the proxy-server
    argument, when the client has a proxy, followed by the arguments of
    the client's options in their order (none when the options give no
    list or an empty one).  On a client with a handle it makes no call at
    all. *)
Theorem ensureBrowser_connect_call (st : ClientState (W * list EngineCall) B) :
  (browser st = None ->
   callsOf (fst (ensureBrowser (recorded engine) base options st))
   = callsOf st
     ++ [CallConnect
           (Some ((if proxy base
                   then ["--proxy-server=" +:+ default "undefined" (currentProxy base)]
                   else [])
                  ++ default [] (args options)))])
  /\ (forall b, browser st = Some b ->
       callsOf (fst (ensureBrowser (recorded engine) base options st)) = callsOf st).
Proof.
  split.
  - intros Hb. rewrite ensureBrowser_recorded, Hb. do 3 f_equal.
    unfold puppeteerArguments. f_equal.
    destruct (args options) as [[| a rest] |]; done.
  - intros b Hb. rewrite ensureBrowser_recorded, Hb. apply app_nil_r.
Qed.

(** X4.  When the engine cannot be started, [fetch] rejects with the error
    of [connect] having made that one call and no other: no page is
    opened and no attempt is made.  No handle is stored, so the next call
    tries to start the engine again. *)
Theorem fetch_without_engine
    (request : Request.PuppeterRequestOptions (Labelled W P))
    (st st1 : ClientState (W * list EngineCall) B) e :
  ensureBrowser (recorded engine) base options st = (st1, Throw e) ->
  fetch (recorded engine) base options (Request.mapActions recordedAction request) st
  = Some (st1, Throw e)
  /\ callsOf st1 = callsOf st ++ [CallConnect (Some (puppeteerArguments base options))]
  /\ browser st1 = None
  /\ ensureBrowser (recorded engine) base options st1
     = initBrowser (recorded engine) base options st1.
Proof.
  intros Hensure.
  pose proof (ensureBrowser_recorded st) as Hcalls. rewrite Hensure in Hcalls.
  split; [by apply RetryFacts.fetch_startup_failure |].
  unfold ensureBrowser in *. destruct (browser st) as [b |] eqn:Hb; [done |].
  assert (browser st1 = None) as Hb1.
  { unfold initBrowser in Hensure.
    destruct (connect (recorded engine) _ (world st)) as [w [b | e']]; [done |].
    injection Hensure as <- _. by simpl. }
  repeat split; try done. by rewrite Hb1.
Qed.

(** X15.  [fetch] awaits the retry delay between two attempts and nowhere
    else: with a [retryDelay] above 0 it calls [delay] once less than it
    makes attempts, so not before the first attempt and not after the
    last; with no [retryDelay], or one that is 0 or negative, it never
    calls [delay]. *)
Theorem fetch_delays (request : Request.PuppeterRequestOptions (Labelled W P))
    (st : ClientState (W * list EngineCall) B) :
  exists st' completion,
    fetch (recorded engine) base options (Request.mapActions recordedAction request) st
    = Some (st', completion)
    /\ countDelays (callsOf st')
       = (countDelays (callsOf st)
          + match Request.retryDelay request with
            | Some d =>
                if (0 <? d)%Z
                then length (fetchLog (recorded engine) base options
                               (Request.mapActions recordedAction request) st) - 1
                else 0
            | None => 0
            end)%nat.
Proof.
  pose proof (ensureBrowser_recorded st) as Hcalls.
  destruct (ensureBrowser (recorded engine) base options st) as [st1 [[] | e]] eqn:Hensure;
    simpl in Hcalls.
  - destruct (RetryFacts.fetch_run (recorded engine) base options
                (Request.mapActions recordedAction request) st st1 Hensure)
      as (st' & completion & _ & _ & _ & Hrun & _).
    exists st', completion. split; [done |].
    unfold fetch in Hrun. unfold fetchLog. rewrite Hensure in Hrun |- *.
    apply attemptRequest_delays in Hrun. rewrite Hrun, Hcalls, countDelays_app.
    simpl.
    assert (countDelays match browser st with
                        | Some _ => []
                        | None => [CallConnect (Some (puppeteerArguments base options))]
                        end = 0%nat) as -> by by destruct (browser st).
    destruct (Request.retryDelay request) as [d |]; [| lia].
    destruct (0 <? d); lia.
  - exists st1, (Throw e). split; [by apply RetryFacts.fetch_startup_failure |].
    unfold fetchLog. rewrite Hensure, Hcalls, countDelays_app. simpl.
    assert (countDelays match browser st with
                        | Some _ => []
                        | None => [CallConnect (Some (puppeteerArguments base options))]
                        end = 0%nat) as -> by by destruct (browser st).
    destruct (Request.retryDelay request) as [d |]; [| lia].
    destruct (0 <? d); lia.
Qed.

End Recorder.

End TraceFacts.

(** ** More on the page session and the lifecycle *)

Module SessionMore.
Import Actions Client.

Section Session.

Context {W B P Passthrough : Type}.
Variable engine : Engine W B P Passthrough.

(** X5.  [close()] rejects only when [browser.close()] of the stored
    handle throws, and with what it throws; the handle then stays stored
    (line 77 is not reached). *)
Theorem close_failure_keeps_handle (st st1 : ClientState W B) e :
  close engine st = (st1, Throw e) ->
  exists b,
    browser st = Some b
    /\ browser st1 = Some b
    /\ snd (browser_close engine b (world st)) = Throw e.
Proof.
  unfold close, closeBrowser. destruct (browser st) as [b |]; [| done].
  destruct (browser_close engine b (world st)) as [w [[] | e']] eqn:Hclose; [done |].
  intros [= <- <-]. exists b. by rewrite Hclose.
Qed.

(** X7.  Running a list of actions is running its first part and then,
    if every action of it completed, the rest from the world it left. *)
Theorem executeActions_app page (actions1 actions2 : list (ActionFunction W P)) (w : W) :
  executeActions page (actions1 ++ actions2) w
  = match executeActions page actions1 w with
    | (w', Normal _) => executeActions page actions2 w'
    | (w', Throw e) => (w', Throw e)
    end.
Proof.
  revert w. induction actions1 as [| action rest IH]; intros w; simpl; [reflexivity |].
  unfold bind. destruct (action page w) as [w1 [[] | e]]; simpl; [apply IH | done].
Qed.

(** X8.  [executeActions] stops at the first action that throws: the
    actions before it have run, in order; it throws what that action
    throws, from the world that action left; no later action runs, so the
    result does not depend on them. *)
Theorem executeActions_first_throw page
    (done_ rest : list (ActionFunction W P)) (failing : ActionFunction W P)
    (w w1 w2 : W) e :
  executeActions page done_ w = (w1, Normal tt) ->
  failing page w1 = (w2, Throw e) ->
  executeActions page (done_ ++ failing :: rest) w = (w2, Throw e).
Proof.
  revert w. induction done_ as [| action others IH]; intros w; simpl.
  - intros [= <-] Hfail. unfold bind. by rewrite Hfail.
  - unfold bind. destruct (action page w) as [w' [[] | e']]; simpl; [apply IH | done].
Qed.

End Session.

Lemma close_failure_keeps_handle_witness :
  exists b,
    browser {| world := Scripted.worldWithoutEngine; browser := Some 1%nat |} = Some b
    /\ browser {| world := Scripted.worldWithoutEngine; browser := Some 1%nat |} = Some b
    /\ snd (browser_close
              (Scripted.failingBrowserClose Scripted.engine) b Scripted.worldWithoutEngine)
       = Throw (ErrorObject "Protocol error: Browser.close" None).
Proof.
  apply (close_failure_keeps_handle (Scripted.failingBrowserClose Scripted.engine)
           {| world := Scripted.worldWithoutEngine; browser := Some 1%nat |}
           {| world := Scripted.worldWithoutEngine; browser := Some 1%nat |}
           (ErrorObject "Protocol error: Browser.close" None)).
  reflexivity.
Defined.

Lemma executeActions_first_throw_witness :
  executeActions Scripted.pageWithoutResponse
    ([Scripted.waitingAction 5] ++ Scripted.rejectingAction :: [Scripted.waitingAction 7])
    (Scripted.worldWith [])
  = (fst (Scripted.waitingAction 5 Scripted.pageWithoutResponse (Scripted.worldWith [])),
     Throw (Nullish false)).
Proof.
  eapply (executeActions_first_throw Scripted.pageWithoutResponse
            [Scripted.waitingAction 5] [Scripted.waitingAction 7] Scripted.rejectingAction);
    reflexivity.
Defined.

End SessionMore.

(** ** More on the retry engine *)

Module RetryMore.
Import Actions Client.

Section Fetch.

Context {W B P Passthrough : Type}.
Variable engine : Engine W B P Passthrough.
Variable base : BaseClient.
Variable options : PuppeteerRealBrowserClientOptions Passthrough.

Implicit Types (request : Request.PuppeterRequestOptions (ActionFunction W P)).
Implicit Types (st : ClientState W B).

(** The message of a failed attempt of the log. *)
Definition thrownMessage (c : Completion HttpResponse) : option string :=
  match c with
  | Throw e => Some (errorMessageOf e)
  | Normal _ => None
  end.

Lemma thrownMessage_failures (errors : list Thrown) :
  omap thrownMessage (map Throw errors) = map errorMessageOf errors.
Proof. induction errors as [| e rest IH]; [done |]. cbn. f_equal. exact IH. Qed.

Lemma failureResponse_fields currentRetry failed e r :
  failureResponse currentRetry failed e = Normal r ->
  attempts r = currentRetry + 1 /\ failedAttempts r = failed
  /\ body r = errorMessageOf e /\ statusText r = "Request Failed".
Proof.
  unfold failureResponse. destruct (errorStatus e) as [s | e']; [| done].
  by intros [= <-].
Qed.

Lemma fetch_Normal_ensured request st st' r :
  fetch engine base options request st = Some (st', Normal r) ->
  exists st1, ensureBrowser engine base options st = (st1, Normal tt).
Proof.
  unfold fetch. destruct (ensureBrowser engine base options st) as [st1 [[] | e]]; [| done].
  by exists st1.
Qed.

(** X11.  In every Response that [fetch] returns, on the success path or
    on the failure path, [attempts] is the base retry count plus the
    number of attempts the call made, for a base retry count and a retry
    bound in the range where a JavaScript number counts exactly (from
    -2^53 to 2^53), so that [currentRetry + 1] of lines 165 and 190 is
    the next integer. *)
Theorem attempts_counts_from_base request st st' r :
  - 2 ^ 53 <= default 0 (Request.retries request) ->
  Z.max (default 0 (Request.retries request)) (default 0 (Request.maxRetries request))
  < 2 ^ 53 ->
  fetch engine base options request st = Some (st', Normal r) ->
  attempts r
  = default 0 (Request.retries request)
    + Z.of_nat (length (fetchLog engine base options request st)).
Proof.
  intros _ _ Hfetch.
  destruct (fetch_Normal_ensured request st st' r Hfetch) as [st1 Hensure].
  destruct (RetryFacts.fetch_run engine base options request st st1 Hensure)
    as (st2 & completion & errors & final & recs & Hrun & Hlog & _ & _ & Hfinal).
  rewrite Hrun in Hfetch. injection Hfetch as _ ->.
  rewrite Hlog, length_app, length_map. simpl. cbn zeta in Hfinal.
  destruct final as [r' | e].
  - destruct Hfinal as (Hc & Ha & _). injection Hc as ->. lia.
  - destruct Hfinal as (rec & _ & Hc & _). symmetry in Hc.
    apply failureResponse_fields in Hc as (Ha & _). lia.
Qed.

(** X12.  In every Response that [fetch] returns, [failedAttempts] lists
    the failed attempts of the call and nothing else: one record for each
    attempt that threw, in the order of the attempts, with the message of
    what it threw ("Unknown error" when that is not an Error).  On the
    failure path the last record is that of the last attempt and [body]
    repeats its message. *)
Theorem failedAttempts_are_the_failures request st st' r :
  fetch engine base options request st = Some (st', Normal r) ->
  map error (failedAttempts r)
  = omap thrownMessage (fetchLog engine base options request st)
  /\ (forall e,
      last (fetchLog engine base options request st) = Some (Throw e) ->
      last (map error (failedAttempts r)) = Some (body r)
      /\ body r = errorMessageOf e).
Proof.
  intros Hfetch. destruct (fetch_Normal_ensured request st st' r Hfetch) as [st1 Hensure].
  destruct (RetryFacts.fetch_run engine base options request st st1 Hensure)
    as (st2 & completion & errors & final & recs & Hrun & Hlog & _ & Hrecs & Hfinal).
  rewrite Hrun in Hfetch. injection Hfetch as _ ->.
  rewrite Hlog, omap_app, thrownMessage_failures, RetryFacts.last_snoc.
  cbn zeta in Hfinal. destruct final as [r' | e].
  - destruct Hfinal as (Hc & _ & Hf & _). injection Hc as ->.
    rewrite Hf, Hrecs. simpl. rewrite app_nil_r. split; [done |]. by intros e.
  - destruct Hfinal as (rec & Hrec & Hc & _). symmetry in Hc.
    apply failureResponse_fields in Hc as (_ & Hf & Hbody & _).
    rewrite Hf, map_app, Hrecs. simpl. rewrite Hrec. split; [done |].
    intros e' [= <-]. by rewrite RetryFacts.last_snoc, Hbody.
Qed.

Section Closure.

Variable url : string.
Variable javaScriptEnabled : option bool.
Variable maxRetries : Z.
Variable actions : option (list (PuppeteerRealBrowserClientAction (ActionFunction W P))).
Variable retryDelay : option Z.


(** The navigation behind a Response: the page opened from the stored
    handle, configured, its before-actions run, and [goto] on it giving a
    response whose status [isSuccess] accepts. *)
Lemma tryBlock_Normal_navigation currentRetry failed st w' pg r :
  tryBlock engine base url javaScriptEnabled actions currentRetry failed st
  = (w', pg, Normal r) ->
  exists b page w0 w1 w2 resp s,
    browser st = Some b
    /\ browser_newPage engine b (world st) = (w0, Normal page)
    /\ bind (configurePage engine base page javaScriptEnabled)
         (fun _ => executeActions page (before (extractActions actions))) w0
       = (w1, Normal tt)
    /\ page_goto engine page (fullUrl base url) w1 = (w2, Normal (Some resp))
    /\ responseStatus resp = Some s
    /\ isSuccess base s = true
    /\ status r = (if s =? 0 then 200 else s)
    /\ headers r = responseHeaders resp.
Proof.
  unfold tryBlock. destruct (browser st) as [b |]; [| done].
  destruct (browser_newPage engine b (world st)) as [w0 [page | e]] eqn:Hnew; [| done].
  unfold pageSteps, loadPage, bind.
  destruct (configurePage engine base page javaScriptEnabled w0) as [wc [[] | e]] eqn:Hconf;
    [| done].
  destruct (executeActions page (before (extractActions actions)) wc)
    as [w1 [[] | e]] eqn:Hbefore; [| done].
  destruct (page_goto engine page (fullUrl base url) w1) as [w2 [response | e]] eqn:Hgoto;
    [| done].
  destruct (executeActions page (after (extractActions actions)) w2) as [w3 [[] | e]];
    [| done].
  destruct (page_content engine page w3) as [w4 [content | e]]; [| done].
  unfold ret at 1. cbn iota beta.
  destruct (page_close engine page w4) as [w5 [[] | e]]; [| done].
  unfold ret. intros [= _ _ Hc]. unfold classify in Hc.
  destruct response as [resp |]; [| done]. simpl in Hc.
  destruct (responseStatus resp) as [s |] eqn:Hs; [| done].
  destruct (isSuccess base s) eqn:Hok; [| done]. simpl in Hc. injection Hc as <-.
  exists b, page, w0, w1, w2, resp, s. cbn [status headers]. simpl default.
  rewrite Hs. repeat split; try done.
  by rewrite Hconf.
Qed.

Lemma attemptLog_Normal_attempt fuel : forall currentRetry failed st r,
  Normal r ∈ attemptLog engine base url javaScriptEnabled maxRetries actions retryDelay
               fuel currentRetry failed st ->
  exists currentRetry' failed' st0 w' pg,
    tryBlock engine base url javaScriptEnabled actions currentRetry' failed' st0
    = (w', pg, Normal r).
Proof.
  induction fuel as [| fuel IH]; intros currentRetry failed st r;
    rewrite RetryFacts.attemptLog_unfold;
    destruct (tryBlock _ _ _ _ _ _ _ _) as [[w page] [r' | e]] eqn:Htry.
  - intros Hin. apply list_elem_of_singleton in Hin as [= ->]. eauto 10.
  - intros Hin. apply elem_of_cons in Hin as [Hin | Hin]; [done |].
    destruct (currentRetry <? maxRetries); by apply elem_of_nil in Hin.
  - intros Hin. apply list_elem_of_singleton in Hin as [= ->]. eauto 10.
  - intros Hin. apply elem_of_cons in Hin as [Hin | Hin]; [done |].
    destruct (currentRetry <? maxRetries); [by apply IH in Hin |].
    by apply elem_of_nil in Hin.
Qed.

End Closure.


(** X13.  A Response comes out of an attempt only when [goto], called on
    the page of that attempt after its configuration and its
    before-actions, gave a response with a status that the client's
    [isSuccess] accepts; the Response carries the status of that response
    (200 in its place when it is 0) and its headers.  A status the
    predicate rejects never reaches the caller on the success path. *)
Theorem success_has_accepted_status request st r :
  Normal r ∈ fetchLog engine base options request st ->
  exists st0 b page w0 w1 w2 resp s,
    browser st0 = Some b
    /\ browser_newPage engine b (world st0) = (w0, Normal page)
    /\ bind (configurePage engine base page (Request.javaScriptEnabled request))
         (fun _ => executeActions page (before (extractActions (Request.actions request))))
         w0
       = (w1, Normal tt)
    /\ page_goto engine page (fullUrl base (Request.url request)) w1
       = (w2, Normal (Some resp))
    /\ responseStatus resp = Some s
    /\ isSuccess base s = true
    /\ status r = (if s =? 0 then 200 else s)
    /\ headers r = responseHeaders resp.
Proof.
  unfold fetchLog.
  destruct (ensureBrowser engine base options st) as [st1 [[] | e]];
    [| intros Hin; by apply elem_of_nil in Hin].
  intros Hin. apply attemptLog_Normal_attempt in Hin as (cr & failed & st0 & w' & pg & Htry).
  apply tryBlock_Normal_navigation in Htry
    as (b & page & w0 & w1 & w2 & resp & s & Hrest).
  by exists st0, b, page, w0, w1, w2, resp, s.
Qed.

End Fetch.

(** Three pages that answer 503, and a delay of 250 between attempts. *)
Definition patientRequest :
    Request.PuppeterRequestOptions (ActionFunction Scripted.World Scripted.Page) :=
  {| Request.url := "https://example.com";
     Request.javaScriptEnabled := None;
     Request.maxRetries := Some 5;
     Request.actions := None;
     Request.retries := Some 3;
     Request.retryDelay := Some 250 |}.


Lemma attempts_counts_from_base_witness :
  exists st' r,
    fetch Scripted.engine Scripted.base Scripted.options patientRequest
      (Scripted.fresh RetryFacts.alwaysUnavailable) = Some (st', Normal r)
    /\ attempts r = 6
    /\ attempts r
       = 3 + Z.of_nat (length (fetchLog Scripted.engine Scripted.base Scripted.options
                                 patientRequest
                                 (Scripted.fresh RetryFacts.alwaysUnavailable))).
Proof.
  eexists _, _. split; [reflexivity |]. split; [reflexivity |].
  eapply (attempts_counts_from_base Scripted.engine Scripted.base Scripted.options
            patientRequest (Scripted.fresh RetryFacts.alwaysUnavailable)).
  - vm_compute. discriminate.
  - vm_compute. reflexivity.
  - reflexivity.
Defined.

Lemma failedAttempts_are_the_failures_witness :
  exists st' r,
    fetch Scripted.engine Scripted.base Scripted.options
      (Scripted.request (Some 2) None) (Scripted.fresh RetryFacts.twoFailuresThenOk)
    = Some (st', Normal r)
    /\ map error (failedAttempts r)
       = ["net::ERR_CONNECTION_RESET"; "net::ERR_CONNECTION_RESET"]
    /\ map error (failedAttempts r)
       = omap thrownMessage
           (fetchLog Scripted.engine Scripted.base Scripted.options
              (Scripted.request (Some 2) None) (Scripted.fresh RetryFacts.twoFailuresThenOk)).
Proof.
  eexists _, _. split; [reflexivity |]. split; [reflexivity |].
  eapply (failedAttempts_are_the_failures Scripted.engine Scripted.base Scripted.options
            (Scripted.request (Some 2) None) (Scripted.fresh RetryFacts.twoFailuresThenOk)).
  reflexivity.
Defined.

Lemma success_has_accepted_status_witness :
  exists st0 b page w0 w1 w2 resp s,
    browser st0 = Some b
    /\ browser_newPage Scripted.engine b (world st0) = (w0, Normal page)
    /\ bind (configurePage Scripted.engine Scripted.base page None)
         (fun _ => executeActions page (before (extractActions None))) w0
       = (w1, Normal tt)
    /\ page_goto Scripted.engine page (fullUrl Scripted.base "https://example.com") w1
       = (w2, Normal (Some resp))
    /\ responseStatus resp = Some s
    /\ isSuccess Scripted.base s = true
    /\ 200 = (if s =? 0 then 200 else s)
    /\ (∅ : gmap string string) = responseHeaders resp.
Proof.
  eapply (success_has_accepted_status Scripted.engine Scripted.base Scripted.options
            (Scripted.request (Some 2) None) (Scripted.fresh RetryFacts.twoFailuresThenOk)
            {| body := "<html></html>";
               headers := ∅;
               status := 200;
               statusText := "Ok";
               attempts := 3;
               failedAttempts :=
                 [{| error := "net::ERR_CONNECTION_RESET"; timestamp := 1002 |};
                  {| error := "net::ERR_CONNECTION_RESET"; timestamp := 1004 |}] |}).
  vm_compute. do 2 apply list_elem_of_further. apply list_elem_of_here.
Defined.

End RetryMore.

(** ** More on the fan-out *)

Module FanOutMore.
Import FanOut.

Section FetchMany.

Context {Request Response : Type}.
Variable requests : list Request.
Variable concurrency : option Z.
Variable fetchOutcome : nat -> Request -> Completion Response.
Variable shouldThrottle : list nat -> option Z -> bool.
Variable handleConcurrency : list (nat * PromiseState) -> option (list nat * Completion unit).

Implicit Types (st : State (Request := Request) (Response := Response)).

Abbreviation run' :=
  (run requests concurrency fetchOutcome shouldThrottle handleConcurrency).

(** The loop counter and the tasks started so far. *)
Definition Dispatched st : Prop :=
  (forall k t, tasks st !! k = Some t -> index t = k /\ requests !! k = Some (request t))
  /\ match control st with
     | AtLoop i => length (tasks st) = i
     | InHandleConcurrency i => length (tasks st) = S i
     | _ => True
     end.

Lemma Dispatched_step st ev st' :
  Dispatched st ->
  step requests concurrency fetchOutcome shouldThrottle handleConcurrency st ev = Some st' ->
  Dispatched st'.
Proof.
  intros [Htasks Hctl]. destruct ev as [| id]; simpl.
  - unfold mainStep. destruct (control st) as [i | i | | returned | e]; try done.
    + destruct (requests !! i) as [req |] eqn:Hreq; intros [= <-]; split; simpl; try done.
      * intros k t Ht. apply lookup_snoc_Some in Ht as [[_ Ht] | [-> <-]];
          [by apply Htasks | by rewrite Hctl].
      * destruct (shouldThrottle _ _); rewrite length_app; simpl; lia.
    + destruct (handleConcurrency _) as [[executing' [[] | e]] |]; try done;
        intros [= <-]; split; simpl; done.
    + destruct (promiseAll _ _) as [[[] | e] |]; try done; intros [= <-]; split; simpl; done.
  - unfold settleTask. destruct (tasks st !! id) as [t |] eqn:Ht; [| done].
    destruct (promise t); try done.
    destruct (Htasks id t Ht) as [Hidx Hreq].
    destruct (fetchOutcome (index t) (request t)); intros [= <-]; split; simpl;
      try (destruct (control st); by rewrite ?length_insert);
      intros k x Hx;
      (apply list_lookup_insert_Some in Hx as [(-> & <- & _) | [_ Hx]];
       [done | by apply Htasks]).
Qed.

Lemma Dispatched_run schedule : forall st st',
  Dispatched st -> run' schedule st = Some st' -> Dispatched st'.
Proof.
  induction schedule as [| ev rest IH]; simpl; intros st st' Hd.
  - by intros [= <-].
  - destruct (step _ _ _ _ _ st ev) as [st1 |] eqn:Hstep; [| done].
    apply IH. by apply (Dispatched_step st ev).
Qed.

(** X16.  Whatever [shouldThrottle] and [handleConcurrency] do and
    however the fetches complete, [fetchMany] starts the fetches in the
    order of [requests]: at every moment the fetches started are those of
    the first requests of the list, the k-th for [requests[k]] with index
    [k], each started once and none skipped. *)
Theorem fetchMany_dispatch_order schedule st :
  fetchMany requests concurrency fetchOutcome shouldThrottle handleConcurrency schedule
  = Some st ->
  map (fun t => (index t, request t)) (tasks st)
  = imap (fun k req => (k, req)) (take (length (tasks st)) requests)
  /\ (length (tasks st) <= length requests)%nat.
Proof.
  intros Hrun.
  assert (Dispatched initial) as Hinit by (split; simpl; done).
  destruct (Dispatched_run schedule initial st Hinit Hrun) as [Htasks _].
  assert (length (tasks st) <= length requests)%nat as Hlen.
  { destruct (tasks st) as [| t0 ts] eqn:Hts using rev_ind; [simpl; lia |].
    rewrite length_app. simpl.
    assert ((ts ++ [t0]) !! length ts = Some t0) as Hlast
      by (apply lookup_snoc_Some; by right).
    destruct (Htasks _ _ Hlast) as [_ Hreq].
    apply lookup_lt_Some in Hreq. lia. }
  split; [| done].
  apply list_eq. intros k. rewrite list_lookup_fmap, list_lookup_imap, lookup_take.
  destruct (tasks st !! k) as [t |] eqn:Ht; simpl.
  - destruct (Htasks k t Ht) as [-> Hreq]. apply lookup_lt_Some in Ht.
    destruct (decide (k < length (tasks st))%nat); [| lia]. by rewrite Hreq.
  - apply lookup_ge_None_1 in Ht.
    by destruct (decide (k < length (tasks st))%nat); [lia |].
Qed.

End FetchMany.

Section Empty.

Context {Request Response : Type}.
Variable concurrency : option Z.
Variable fetchOutcome : nat -> Request -> Completion Response.
Variable shouldThrottle : list nat -> option Z -> bool.
Variable handleConcurrency : list (nat * PromiseState) -> option (list nat * Completion unit).

Implicit Types (st : State (Request := Request) (Response := Response)).

Lemma idle_step st ev st' :
  tasks st = [] -> results st = ∅ ->
  step [] concurrency fetchOutcome shouldThrottle handleConcurrency st ev = Some st' ->
  tasks st' = [] /\ results st' = ∅
  /\ ((forall returned, control st = Resolved returned -> returned = ∅) ->
      forall returned, control st' = Resolved returned -> returned = ∅).
Proof.
  intros Ht Hr. destruct ev as [| id]; simpl.
  - unfold mainStep. destruct (control st) as [i | i | | returned0 | e]; try done.
    + simpl. by intros [= <-].
    + destruct (handleConcurrency _) as [[executing' [[] | e]] |]; try done;
        by intros [= <-].
    + destruct (promiseAll _ _) as [[[] | e] |]; try done; intros [= <-]; simpl;
        repeat split; try done.
      intros _ returned [= <-]. done.
  - unfold settleTask. by rewrite Ht.
Qed.

(** X17.  On an empty list of requests [fetchMany] starts no fetch, calls
    neither [shouldThrottle] nor [handleConcurrency], and resolves at once
    with an empty array; no schedule makes it resolve with anything
    else. *)
Theorem fetchMany_empty :
  fetchMany [] concurrency fetchOutcome shouldThrottle handleConcurrency [Main; Main]
  = Some {| control := Resolved ∅; results := ∅; tasks := []; executing := [] |}
  /\ (forall schedule st returned,
      fetchMany [] concurrency fetchOutcome shouldThrottle handleConcurrency schedule
      = Some st ->
      control st = Resolved returned ->
      returned = ∅ /\ tasks st = []).
Proof.
  split; [reflexivity |].
  intros schedule. unfold fetchMany.
  assert (forall st st',
             tasks st = [] -> results st = ∅ ->
             (forall returned, control st = Resolved returned -> returned = ∅) ->
             run [] concurrency fetchOutcome shouldThrottle handleConcurrency schedule st
             = Some st' ->
             forall returned, control st' = Resolved returned -> returned = ∅ /\ tasks st' = [])
    as Hgen.
  { induction schedule as [| ev rest IH]; simpl; intros st st' Ht Hr Hc.
    - intros [= <-] returned Hres. split; [by apply Hc | done].
    - destruct (step _ _ _ _ _ st ev) as [st1 |] eqn:Hstep; [| done].
      destruct (idle_step st ev st1 Ht Hr Hstep) as (Ht1 & Hr1 & Hc1).
      apply IH; try done. by apply Hc1. }
  intros st returned Hrun. by apply (Hgen initial st).
Qed.

End Empty.

End FanOutMore.

(** ** Scripted runs for the properties above *)

Module Runs.
Import Actions Client Trace.

(** The scripted engine with its record of calls, a client without a
    browser on it, and two labelled actions: a bare one and one for before
    the navigation. *)
Definition recordedEngine : Engine (Scripted.World * list EngineCall) nat Scripted.Page unit :=
  recorded Scripted.engine.

Definition freshRecorded (w : Scripted.World)
    : ClientState (Scripted.World * list EngineCall) nat :=
  {| world := (w, []); browser := None |}.

Definition labelledActions
    : list (PuppeteerRealBrowserClientAction (Labelled Scripted.World Scripted.Page)) :=
  [Actions.ActionFunction (1%nat, Scripted.waitingAction 5);
   ActionObject "beforeRequest" (2%nat, Scripted.waitingAction 7)].

Definition labelledRequest
    : Request.PuppeterRequestOptions (Labelled Scripted.World Scripted.Page) :=
  {| Request.url := "https://example.com";
     Request.javaScriptEnabled := Some false;
     Request.maxRetries := Some 2;
     Request.actions := Some labelledActions;
     Request.retries := None;
     Request.retryDelay := Some 250 |}.

Lemma configurePage_calls_witness :
  snd (fst (configurePage recordedEngine Scripted.baseWithAgent (Scripted.pageAnswering 200)
              (Some false) (Scripted.worldWith [], [])))
  = [] ++ [CallSetUserAgent "Mozilla/5.0"] ++ [CallSetJavaScriptEnabled false].
Proof.
  destruct (TraceFacts.configurePage_calls Scripted.engine Scripted.baseWithAgent
              (Scripted.pageAnswering 200) (Some false) (Scripted.worldWith [], []))
    as (n & _ & Hall & _).
  apply Hall. reflexivity.
Defined.

Lemma attempt_calls_witness :
  snd (fst (fst (tryBlock recordedEngine Scripted.baseWithAgent "https://example.com"
                   (Some false)
                   (List.map (mapAction recordedAction) <$> Some labelledActions) 0 []
                   {| world := (Scripted.worldWith [Normal (Scripted.pageAnswering 200)], []);
                      browser := Some 1%nat |})))
  = [CallNewPage; CallSetUserAgent "Mozilla/5.0"; CallSetJavaScriptEnabled false;
     CallAction 2; CallGoto "https://proxy.example/?target=https://example.com";
     CallAction 1; CallContent; CallPageClose].
Proof.
  destruct (TraceFacts.attempt_calls Scripted.engine Scripted.baseWithAgent
              "https://example.com" (Some false) (Some labelledActions) 0 []
              {| world := (Scripted.worldWith [Normal (Scripted.pageAnswering 200)], []);
                 browser := Some 1%nat |})
    as (n & _ & Hall).
  eapply Hall. reflexivity.
Defined.

Lemma ensureBrowser_connect_call_witness :
  callsOf (fst (ensureBrowser recordedEngine Scripted.baseWithAgent Scripted.options
                  (freshRecorded (Scripted.worldWith []))))
  = [] ++ [CallConnect (Some (["--proxy-server=http://127.0.0.1:8080"] ++ []))].
Proof.
  apply (proj1 (TraceFacts.ensureBrowser_connect_call Scripted.engine Scripted.baseWithAgent
                  Scripted.options (freshRecorded (Scripted.worldWith [])))).
  reflexivity.
Defined.

Lemma fetch_without_engine_witness :
  exists st1,
    fetch recordedEngine Scripted.base Scripted.options
      (Request.mapActions recordedAction labelledRequest)
      (freshRecorded Scripted.worldWithoutEngine)
    = Some (st1, Throw (ErrorObject "Failed to launch the browser process" None))
    /\ callsOf st1
       = callsOf (freshRecorded Scripted.worldWithoutEngine)
         ++ [CallConnect (Some (puppeteerArguments Scripted.base Scripted.options))]
    /\ browser st1 = None
    /\ ensureBrowser recordedEngine Scripted.base Scripted.options st1
       = initBrowser recordedEngine Scripted.base Scripted.options st1.
Proof.
  eexists.
  eapply (TraceFacts.fetch_without_engine Scripted.engine Scripted.base Scripted.options
            labelledRequest (freshRecorded Scripted.worldWithoutEngine)).
  reflexivity.
Defined.

Lemma fetchMany_dispatch_order_witness :
  exists st,
    FanOut.fetchMany FanOutFacts.threeRequests (Some 2) FanOutFacts.answerOf
      FanOut.throttleAtBound FanOut.dropSettled [FanOut.Main; FanOut.Main; FanOut.Settle 1]
    = Some st
    /\ map (fun t => (FanOut.index t, FanOut.request t)) (FanOut.tasks st)
       = imap (fun k req => (k, req)) (take (length (FanOut.tasks st)) FanOutFacts.threeRequests)
    /\ (length (FanOut.tasks st) <= length FanOutFacts.threeRequests)%nat.
Proof.
  eexists. split; [vm_compute; reflexivity |].
  eapply (FanOutMore.fetchMany_dispatch_order FanOutFacts.threeRequests (Some 2)
            FanOutFacts.answerOf FanOut.throttleAtBound FanOut.dropSettled
            [FanOut.Main; FanOut.Main; FanOut.Settle 1]).
  vm_compute. reflexivity.
Defined.

Lemma fetchMany_empty_witness :
  (∅ : gmap nat string) = ∅
  /\ FanOut.tasks
       {| FanOut.control := FanOut.Resolved (∅ : gmap nat string);
          FanOut.results := ∅;
          FanOut.tasks := @nil (FanOut.Task (Request := string));
          FanOut.executing := [] |} = [].
Proof.
  eapply (proj2 (FanOutMore.fetchMany_empty (Some 2) FanOutFacts.answerOf
                   FanOut.throttleAtBound FanOut.dropSettled)
            [FanOut.Main; FanOut.Main]); reflexivity.
Defined.

End Runs.

(** ** Calls that overlap *)

Module OverlapFacts.
Import Actions Client.



(** *** A call that runs alone

    The steps of a call, taken one after the other with no other call in
    between, are the call. *)
Section Alone.

Context {W B P Passthrough : Type}.
Variable engine : Engine W B P Passthrough.
Variable base : BaseClient.
Variable options : PuppeteerRealBrowserClientOptions Passthrough.

Implicit Types (st : ClientState W B).

Lemma interleaved_alone n call st :
  interleaved engine base options (replicate (S n) 0%nat) st [call]
  = interleaved engine base options (replicate n 0%nat)
      (fst (advance engine base options call st))
      [snd (advance engine base options call st)].
Proof. reflexivity. Qed.

Lemma close_as_steps st :
  interleaved engine base options [0; 0]%nat st [Closing BeforeCloseCheck]
  = (fst (close engine st), [Closing (CloseCompleted (snd (close engine st)))]).
Proof.
  unfold close, closeBrowser. simpl.
  destruct (browser st) as [b |] eqn:Hb; simpl; rewrite ?Hb; [| done].
  destruct (browser_close engine b (world st)) as [w [[] | e]]; simpl; by rewrite ?Hb.
Qed.

Lemma attempts_as_steps (request : Request.PuppeterRequestOptions (ActionFunction W P)) fuel :
  forall currentRetry failed st st' c,
    attemptRequest engine base (Request.url request) (Request.javaScriptEnabled request)
      (default 0 (Request.maxRetries request)) (Request.actions request)
      (Request.retryDelay request) fuel currentRetry failed st = Some (st', c) ->
    exists n,
      interleaved engine base options (replicate n 0%nat)
        (fst (attemptStep engine base request currentRetry failed st))
        [snd (attemptStep engine base request currentRetry failed st)]
      = (st', [FetchSettled c]).
Proof.
  induction fuel as [| fuel IH]; intros currentRetry failed st st' c;
    rewrite RetryFacts.attemptRequest_unfold; unfold attemptStep;
    destruct (tryBlock _ _ _ _ _ _ _ _) as [[w page] [r | e]];
    try (intros [= <- <-]; by exists 0%nat);
    destruct (currentRetry <? default 0 (Request.maxRetries request));
    try (intros [= <- <-]; by exists 0%nat).
  intros Hrun. destruct (IH _ _ _ _ _ Hrun) as [n Hn].
  exists (S n). by rewrite interleaved_alone.
Qed.

Lemma fetch_as_steps (request : Request.PuppeterRequestOptions (ActionFunction W P))
    st st' c :
  fetch engine base options request st = Some (st', c) ->
  exists n,
    interleaved engine base options (replicate n 0%nat) st [start (CallFetch request)]
    = (st', [FetchSettled c]).
Proof.
  unfold fetch, ensureBrowser, initBrowser.
  destruct (browser st) as [b |] eqn:Hb.
  - assert (advance engine base options (start (CallFetch request)) st
            = (st, Fetching request (Completed (Normal tt)))) as Hcheck.
    { simpl. by rewrite Hb. }
    intros Hrun. destruct (attempts_as_steps _ _ _ _ _ _ _ Hrun) as [n Hn].
    exists (S (S n)). rewrite interleaved_alone, Hcheck. cbn [fst snd].
    rewrite interleaved_alone. exact Hn.
  - assert (advance engine base options (start (CallFetch request)) st
            = (st, Fetching request AwaitingConnect)) as Hcheck.
    { simpl. by rewrite Hb. }
    destruct (connect engine _ (world st)) as [w [b | e]] eqn:Hc.
    + assert (advance engine base options (Fetching request AwaitingConnect) st
              = ({| world := w; browser := Some b |},
                 Fetching request (Completed (Normal tt)))) as Hconnect.
      { simpl. by rewrite Hc. }
      intros Hrun. destruct (attempts_as_steps _ _ _ _ _ _ _ Hrun) as [n Hn].
      exists (S (S (S n))). rewrite interleaved_alone, Hcheck. cbn [fst snd].
      rewrite interleaved_alone, Hconnect. cbn [fst snd].
      rewrite interleaved_alone. exact Hn.
    + assert (advance engine base options (Fetching request AwaitingConnect) st
              = ({| world := w; browser := browser st |},
                 Fetching request (Completed (Throw e)))) as Hconnect.
      { simpl. by rewrite Hc. }
      intros [= <- <-]. exists 3%nat.
      change 3%nat with (S (S (S 0))).
      rewrite interleaved_alone, Hcheck. cbn [fst snd].
      rewrite interleaved_alone, Hconnect. cbn [fst snd].
      rewrite interleaved_alone. simpl. by rewrite Hb.
Qed.

End Alone.

(** *** Calls in flight together *)
Section Overlap.

Context {W B P Passthrough : Type} `{EqDecision B}.
Variable engine : Engine W B P Passthrough.
Variable base : BaseClient.
Variable options : PuppeteerRealBrowserClientOptions Passthrough.

Implicit Types (st : ClientState (W * list B) B).
Implicit Types (calls : list (InFlight (W * list B) B P)).

Abbreviation advance' := (advance (tracked engine) base options).












End Overlap.


(** The run of the calls above: the two first calls of [fetch] and the
    [close] overlap on the browser the first started; the last [fetch]
    starts the second browser once the first is closed. *)
Lemma overlapping_run :
  let run n :=
    interleaved (tracked Scripted.engine) Scripted.base Scripted.options
      (take n Scripted.overlappingSchedule)
      {| world := (Scripted.overlappingPages, []); browser := None |}
      (map (fun call => start (trackedCall call)) Scripted.overlappingCalls) in
  (browser (fst (run 6%nat)) = Some 1%nat /\ liveBrowsers (fst (run 6%nat)) = [1%nat])
  /\ (exists request failed response,
      snd (run 6%nat)
      = [Attempting request 1 failed; FetchSettled (Normal response);
         Closing (AwaitingBrowserClose 1%nat);
         Fetching (Request.mapActions trackedAction (Scripted.request None None))
           BeforeCheck])
  /\ (browser (fst (run 8%nat)) = None /\ liveBrowsers (fst (run 8%nat)) = [])
  /\ (browser (fst (run 11%nat)) = Some 2%nat /\ liveBrowsers (fst (run 11%nat)) = [2%nat]).
Proof.
  repeat split; try reflexivity.
  vm_compute. eexists _, _, _. reflexivity.
Qed.


End OverlapFacts.
